(** * go-maddr-filter: the allow/deny filter table

    A shallow embedding of [filter.go] (package [filter]) and the
    properties of its rule table.

    The Go code keeps the rules in a slice of pointers to [filterEntry]
    objects, mutates entries through those pointers, rebuilds or shifts
    the slice with [append], and brackets every method with calls on a
    [sync.RWMutex].  The embedding keeps all of that explicit:

    - memory is a record of typed heaps (struct objects, entry objects,
      backing arrays); a location is an index into its heap, allocation
      extends the heap at the end;
    - a slice is a header (array, offset, length, capacity) and [append]
      writes in place when the capacity allows and reallocates otherwise;
    - methods are computations in a state monad whose outcome is a value
      or a run-time panic; [defer] runs its action on both;
    - every call on the mutex and every access to the table's memory is
      appended to an event log kept in the memory. *)

From Stdlib Require Import ZArith Lia Ascii DecimalString.
From stdpp Require Import base tactics option strings numbers list.

Local Open Scope Z_scope.
Local Open Scope nat_scope.

(** ** External collaborators

    [net.IP], [net.IPNet], [ma.Multiaddr] and [net.Addr] come from the Go
    standard library and from go-multiaddr; [growslice] is the capacity
    the Go runtime picks when [append] has to reallocate (old capacity,
    required length).  The table only uses them through the functions
    below.

    A [*net.IPNet] is taken as the network it points to and is never nil:
    the package reads these objects and never writes them.  The same goes
    for a [ma.Multiaddr]. *)
Class Deps := {
  IP : Type;
  IPNet : Type;
  Multiaddr : Type;
  NetAddr : Type;
  (* func (n *IPNet) Contains(ip IP) bool *)
  IPNet_Contains : IPNet -> IP -> bool;
  (* func (n *IPNet) String() string *)
  IPNet_String : IPNet -> string;
  (* func Split(m Multiaddr) []Multiaddr *)
  ma_Split : Multiaddr -> list Multiaddr;
  (* func ToNetAddr(maddr ma.Multiaddr) (net.Addr, error); None is err != nil *)
  manet_ToNetAddr : Multiaddr -> option NetAddr;
  (* net.Addr.String() *)
  NetAddr_String : NetAddr -> string;
  (* func ParseIP(s string) IP; None is the nil IP *)
  net_ParseIP : string -> option IP;
  growslice : nat -> nat -> nat;
}.

(** ** Locations, slices, events *)

Definition loc := nat.

(** A slice header.  [sl_arr = None] is the nil slice's missing array. *)
Record slice := Slice {
  sl_arr : option loc;
  sl_off : nat;
  sl_len : nat;
  sl_cap : nat;
}.

(* var out []T *)
Definition nil_slice : slice := Slice None 0 0 0.

Inductive field := FRejectByDefault | Ffilters.

(** What an access touches: a field of the [Filters] object at [fs], an
    entry object, or a backing array of the rule slice. *)
Inductive object :=
| ObjField (fs : loc) (fld : field)
| ObjEntry (p : loc)
| ObjArray (a : loc).

Inductive event :=
| EvLock (fs : loc)
| EvUnlock (fs : loc)
| EvRLock (fs : loc)
| EvRUnlock (fs : loc)
| EvRead (o : object)
| EvWrite (o : object).

(** ** Backing arrays and the slice operations of Go *)

(** A heap of arrays whose elements are nil-able pointers. *)
Abbreviation arrays X := (list (list (option X))).

Section Arrays.
Context {X : Type}.

(* dst[pos:pos+len(xs)] = xs *)
Definition write_at (pos : nat) (xs d : list (option X)) : list (option X) :=
  take pos d ++ xs ++ drop (pos + length xs) d.

(** The elements [s[0] .. s[len-1]]; [None] when the header does not fit
    the heap. *)
Definition sl_data (h : arrays X) (s : slice) : option (list (option X)) :=
  match sl_arr s with
  | None => if decide (sl_len s = 0) then Some [] else None
  | Some a =>
      match h !! a with
      | Some d =>
          if decide (sl_off s + sl_len s <= length d)
          then Some (take (sl_len s) (drop (sl_off s) d))
          else None
      | None => None
      end
  end.

(* s[i]; out of range panics *)
Definition sl_index (h : arrays X) (s : slice) (i : nat) : option (option X) :=
  if decide (i < sl_len s) then
    match sl_arr s with
    | Some a =>
        match h !! a with
        | Some d => d !! (sl_off s + i)
        | None => None
        end
    | None => None
    end
  else None.

(* s[:hi]; the upper bound of a slice expression is the capacity *)
Definition sl_to (s : slice) (hi : Z) : option slice :=
  if decide (0 <= hi <= Z.of_nat (sl_cap s))%Z
  then Some (Slice (sl_arr s) (sl_off s) (Z.to_nat hi) (sl_cap s))
  else None.

(* s[lo:]; the omitted upper bound is the length *)
Definition sl_from (s : slice) (lo : Z) : option slice :=
  if decide (0 <= lo <= Z.of_nat (sl_len s))%Z
  then Some (Slice (sl_arr s) (sl_off s + Z.to_nat lo)
                   (sl_len s - Z.to_nat lo) (sl_cap s - Z.to_nat lo))
  else None.

(** [append(s, xs...)]: when the capacity suffices the elements are
    written behind the slice in its own array, otherwise a new array of
    capacity [max n (grow cap n)] receives the old elements and [xs]. *)
Definition sl_append (grow : nat -> nat -> nat) (h : arrays X) (s : slice)
    (xs : list (option X)) : option (arrays X * slice) :=
  let n := sl_len s + length xs in
  if decide (n <= sl_cap s) then
    match xs with
    | [] => Some (h, s)
    | _ =>
        match sl_arr s with
        | Some a =>
            match h !! a with
            | Some d =>
                if decide (sl_off s + n <= length d)
                then Some (<[a := write_at (sl_off s + sl_len s) xs d]> h,
                           Slice (Some a) (sl_off s) n (sl_cap s))
                else None
            | None => None
            end
        | None => None
        end
    end
  else
    match sl_data h s with
    | Some old =>
        let c := Nat.max n (grow (sl_cap s) n) in
        Some (h ++ [old ++ xs ++ replicate (c - n) None],
              Slice (Some (length h)) 0 n c)
    | None => None
    end.
End Arrays.

(** The outcome of a call: a value, or a run-time panic. *)
Inductive outcome (A : Type) :=
| Ok (a : A)
| Panic.
Arguments Ok {A} a.
Arguments Panic {A}.

Section Model.
Context `{Deps}.

(** ** The data of [filter.go] *)

(* type filterEntry struct { f *net.IPNet; reject bool } *)
Record filterEntry := FilterEntry {
  f : IPNet;
  reject : bool;
}.

(* type Filters struct { RejectByDefault bool; mu sync.RWMutex; filters []*filterEntry }
   The calls on [mu] are recorded in the event log. *)
Record Filters := MkFilters {
  RejectByDefault : bool;
  filters : slice;
}.

Record mem := Mem {
  objs : list Filters;                 (* the Filters objects *)
  entries : list filterEntry;          (* the filterEntry objects *)
  earrays : arrays loc;                (* backing arrays of []*filterEntry *)
  narrays : arrays IPNet;              (* backing arrays of []*net.IPNet *)
  log : list event;
}.

Definition set_objs (o : list Filters) (m : mem) : mem :=
  Mem o (entries m) (earrays m) (narrays m) (log m).
Definition set_entries (e : list filterEntry) (m : mem) : mem :=
  Mem (objs m) e (earrays m) (narrays m) (log m).
Definition set_earrays (h : arrays loc) (m : mem) : mem :=
  Mem (objs m) (entries m) h (narrays m) (log m).
Definition set_narrays (h : arrays IPNet) (m : mem) : mem :=
  Mem (objs m) (entries m) (earrays m) h (log m).
Definition set_log (l : list event) (m : mem) : mem :=
  Mem (objs m) (entries m) (earrays m) (narrays m) l.

Definition empty_mem : mem := Mem [] [] [] [] [].

(** ** The monad: state, and a value or a panic *)

Definition M (A : Type) : Type := mem -> outcome A * mem.

Definition ret {A} (a : A) : M A := fun m => (Ok a, m).

Definition bind {A B} (c : M A) (k : A -> M B) : M B :=
  fun m =>
    match c m with
    | (Ok a, m') => k a m'
    | (Panic, m') => (Panic, m')
    end.

Definition panic {A} : M A := fun m => (Panic, m).

(** [defer d; body]: [d] runs when [body] is left, by return or by panic. *)
Definition defer {A} (d : M unit) (body : M A) : M A :=
  fun m =>
    match body m with
    | (r, m') =>
        match d m' with
        | (Ok _, m'') => (r, m'')
        | (Panic, m'') => (Panic, m'')
        end
    end.

Definition emit (e : event) : M unit :=
  fun m => (Ok tt, set_log (log m ++ [e]) m).

Definition lift {A} (o : option A) : M A :=
  fun m => match o with Some a => (Ok a, m) | None => (Panic, m) end.
End Model.

Declare Scope go_scope.
Delimit Scope go_scope with go.
Notation "'let*' x ':=' c 'in' k" := (bind c (fun x => k))
  (at level 20, x name, c at level 100, k at level 200, only parsing) : go_scope.
Notation "c1 ';;' c2" := (bind c1 (fun _ => c2))
  (at level 100, c2 at level 200, right associativity, only parsing) : go_scope.

Section Code.
Context `{Deps}.
Local Open Scope go_scope.

(** ** Memory accesses *)

(* *fs; a nil receiver panics *)
Definition deref (fs : loc) : M Filters :=
  fun m => lift (objs m !! fs) m.

(* fs.RejectByDefault *)
Definition get_RejectByDefault (fs : loc) : M bool :=
  emit (EvRead (ObjField fs FRejectByDefault));;
  let* T := deref fs in
  ret (RejectByDefault T).

(* fs.RejectByDefault = b, the assignment the owner of the table makes
   (the field is exported and has no setter) *)
Definition set_RejectByDefault (fs : loc) (b : bool) : M unit :=
  emit (EvWrite (ObjField fs FRejectByDefault));;
  let* T := deref fs in
  fun m => (Ok tt, set_objs (<[fs := MkFilters b (filters T)]> (objs m)) m).

(* fs.filters *)
Definition get_filters (fs : loc) : M slice :=
  emit (EvRead (ObjField fs Ffilters));;
  let* T := deref fs in
  ret (filters T).

(* fs.filters = s *)
Definition set_filters (fs : loc) (s : slice) : M unit :=
  emit (EvWrite (ObjField fs Ffilters));;
  let* T := deref fs in
  fun m => (Ok tt, set_objs (<[fs := MkFilters (RejectByDefault T) s]> (objs m)) m).

(* fs.mu.Lock() and its siblings *)
Definition mu_Lock (fs : loc) : M unit := deref fs;; emit (EvLock fs).
Definition mu_Unlock (fs : loc) : M unit := deref fs;; emit (EvUnlock fs).
Definition mu_RLock (fs : loc) : M unit := deref fs;; emit (EvRLock fs).
Definition mu_RUnlock (fs : loc) : M unit := deref fs;; emit (EvRUnlock fs).

(* *p for p a *filterEntry; nil panics *)
Definition load (p : option loc) : M filterEntry :=
  match p with
  | Some l => emit (EvRead (ObjEntry l));; fun m => lift (entries m !! l) m
  | None => panic
  end.

(* p.reject = b *)
Definition store_reject (p : option loc) (b : bool) : M unit :=
  match p with
  | Some l =>
      emit (EvWrite (ObjEntry l));;
      fun m =>
        match entries m !! l with
        | Some e => (Ok tt, set_entries (<[l := FilterEntry (f e) b]> (entries m)) m)
        | None => (Panic, m)
        end
  | None => panic
  end.

(* &filterEntry{f: p, reject: b} *)
Definition new_entry (p : IPNet) (b : bool) : M (option loc) :=
  fun m => (Ok (Some (length (entries m))),
            set_entries (entries m ++ [FilterEntry p b]) m).

(* an access to the backing array of a rule slice *)
Definition touch (ev : object -> event) (s : slice) : M unit :=
  match sl_arr s with
  | Some a => emit (ev (ObjArray a))
  | None => ret tt
  end.

(* s[i] for s a []*filterEntry *)
Definition eindex (s : slice) (i : nat) : M (option loc) :=
  touch EvRead s;; fun m => lift (sl_index (earrays m) s i) m.

(* s[i] with i an int *)
Definition eindex_int (s : slice) (i : Z) : M (option loc) :=
  if decide (0 <= i)%Z then eindex s (Z.to_nat i) else panic.

(* the elements of s, as the variadic argument s... passes them *)
Definition edata (s : slice) : M (list (option loc)) :=
  touch EvRead s;; fun m => lift (sl_data (earrays m) s) m.

(* append(s, xs...) for s a []*filterEntry *)
Definition eappend (s : slice) (xs : list (option loc)) : M slice :=
  match xs with
  | [] => ret tt
  | _ => touch (if decide (sl_len s + length xs <= sl_cap s)
                then EvWrite else EvRead) s
  end;;
  fun m =>
    match sl_append growslice (earrays m) s xs with
    | Some (h, s') => (Ok s', set_earrays h m)
    | None => (Panic, m)
    end.

(* append(out, x) for out a []*net.IPNet local to the caller *)
Definition nappend (s : slice) (xs : list (option IPNet)) : M slice :=
  fun m =>
    match sl_append growslice (narrays m) s xs with
    | Some (h, s') => (Ok s', set_narrays h m)
    | None => (Panic, m)
    end.

(* make([]*filterEntry, 0) *)
Definition make_empty : M slice :=
  fun m => (Ok (Slice (Some (length (earrays m))) 0 0 0),
            set_earrays (earrays m ++ [[]]) m).

(** ** The functions of [filter.go] *)

(* func NewFilters() *Filters *)
Definition NewFilters : M loc :=
  let* s := make_empty in
  fun m => (Ok (length (objs m)), set_objs (objs m ++ [MkFilters false s]) m).

(* for idx, ft := range s { if ft.f.String() == ffs { return idx } }; return -1 *)
Fixpoint find_loop (ffs : string) (s : slice) (idx n : nat) : M Z :=
  match n with
  | O => ret (-1)%Z
  | S n' =>
      let* ft := eindex s idx in
      let* e := load ft in
      if String.eqb (IPNet_String (f e)) ffs
      then ret (Z.of_nat idx)
      else find_loop ffs s (S idx) n'
  end.

(* func (fs *Filters) find(ff *net.IPNet) int *)
Definition find (fs : loc) (ff : IPNet) : M Z :=
  let ffs := IPNet_String ff in
  let* s := get_filters fs in
  find_loop ffs s 0 (sl_len s).

(* func (fs *Filters) AddDialFilter(f *net.IPNet) *)
Definition AddDialFilter (fs : loc) (p : IPNet) : M unit :=
  mu_Lock fs;;
  defer (mu_Unlock fs)
    (let* idx := find fs p in
     if negb (idx =? -1)%Z then
       let* s := get_filters fs in
       let* ft := eindex_int s idx in
       store_reject ft true
     else
       let* s := get_filters fs in
       let* ft := new_entry p true in
       let* s' := eappend s [ft] in
       set_filters fs s').

(* func (fs *Filters) AddDenyFilter(f *net.IPNet) *)
Definition AddDenyFilter (fs : loc) (p : IPNet) : M unit :=
  AddDialFilter fs p.

(* func (fs *Filters) AddAllowFilter(f *net.IPNet) *)
Definition AddAllowFilter (fs : loc) (p : IPNet) : M unit :=
  mu_Lock fs;;
  defer (mu_Unlock fs)
    (let* idx := find fs p in
     if negb (idx =? -1)%Z then
       let* s := get_filters fs in
       let* ft := eindex_int s idx in
       store_reject ft false
     else
       let* s := get_filters fs in
       let* ft := new_entry p false in
       let* s' := eappend s [ft] in
       set_filters fs s').

(** The text [AddDialFilter] and [AddAllowFilter] share; they differ in
    the stored action [b] only. *)
Definition add_with (b : bool) (fs : loc) (p : IPNet) : M unit :=
  mu_Lock fs;;
  defer (mu_Unlock fs)
    (let* idx := find fs p in
     if negb (idx =? -1)%Z then
       let* s := get_filters fs in
       let* ft := eindex_int s idx in
       store_reject ft b
     else
       let* s := get_filters fs in
       let* ft := new_entry p b in
       let* s' := eappend s [ft] in
       set_filters fs s').

(* func (fs *Filters) Remove(ff *net.IPNet) *)
Definition Remove (fs : loc) (ff : IPNet) : M unit :=
  mu_Lock fs;;
  defer (mu_Unlock fs)
    (let* idx := find fs ff in
     if negb (idx =? -1)%Z then
       let* s1 := get_filters fs in
       let* front := lift (sl_to s1 idx) in
       let* s2 := get_filters fs in
       let* back := lift (sl_from s2 (idx + 1)) in
       let* tail := edata back in
       let* s' := eappend front tail in
       set_filters fs s'
     else ret tt).

(* for _, ft := range s { if ft.f.Contains(netip) { reject = ft.reject } } *)
Fixpoint AddrBlocked_loop (netip : IP) (s : slice) (idx n : nat)
    (rej : bool) : M bool :=
  match n with
  | O => ret rej
  | S n' =>
      let* ft := eindex s idx in
      let* e := load ft in
      AddrBlocked_loop netip s (S idx) n'
        (if IPNet_Contains (f e) netip then reject e else rej)
  end.

(* func (fs *Filters) AddrBlocked(a ma.Multiaddr) bool *)
Definition AddrBlocked (fs : loc) (a : Multiaddr) : M bool :=
  match ma_Split a with
  | [] => get_RejectByDefault fs
  | maddr0 :: _ =>
      match manet_ToNetAddr maddr0 with
      | None => get_RejectByDefault fs
      | Some netaddr =>
          match net_ParseIP (NetAddr_String netaddr) with
          | None => get_RejectByDefault fs
          | Some netip =>
              mu_RLock fs;;
              defer (mu_RUnlock fs)
                (let* rej := get_RejectByDefault fs in
                 let* s := get_filters fs in
                 AddrBlocked_loop netip s 0 (sl_len s) rej)
          end
      end
  end.

(* for _, ff := range s { if ff.reject { out = append(out, ff.f) } } *)
Fixpoint Filters_loop (s : slice) (idx n : nat) (out : slice) : M slice :=
  match n with
  | O => ret out
  | S n' =>
      let* ff := eindex s idx in
      let* e := load ff in
      if reject e then
        let* out' := nappend out [Some (f e)] in
        Filters_loop s (S idx) n' out'
      else Filters_loop s (S idx) n' out
  end.

(* func (fs *Filters) Filters() []*net.IPNet *)
Definition Filters_Filters (fs : loc) : M slice :=
  let out := nil_slice in
  mu_RLock fs;;
  defer (mu_RUnlock fs)
    (let* s := get_filters fs in
     Filters_loop s 0 (sl_len s) out).

(* func (fs *Filters) RejectFilters() []*net.IPNet *)
Definition RejectFilters (fs : loc) : M slice :=
  Filters_Filters fs.

(* for _, ff := range s { if !ff.reject { out = append(out, ff.f) } } *)
Fixpoint AllowFilters_loop (s : slice) (idx n : nat) (out : slice) : M slice :=
  match n with
  | O => ret out
  | S n' =>
      let* ff := eindex s idx in
      let* e := load ff in
      if negb (reject e) then
        let* out' := nappend out [Some (f e)] in
        AllowFilters_loop s (S idx) n' out'
      else AllowFilters_loop s (S idx) n' out
  end.

(** The loop [Filters] and [AllowFilters] share; they differ in the
    test [keep] only. *)
Fixpoint collect_loop (keep : filterEntry -> bool) (s : slice) (idx n : nat)
    (out : slice) : M slice :=
  match n with
  | O => ret out
  | S n' =>
      let* ff := eindex s idx in
      let* e := load ff in
      if keep e then
        let* out' := nappend out [Some (f e)] in
        collect_loop keep s (S idx) n' out'
      else collect_loop keep s (S idx) n' out
  end.

(* func (fs *Filters) AllowFilters() []*net.IPNet *)
Definition AllowFilters (fs : loc) : M slice :=
  let out := nil_slice in
  mu_RLock fs;;
  defer (mu_RUnlock fs)
    (let* s := get_filters fs in
     AllowFilters_loop s 0 (sl_len s) out).
End Code.

(** ** A concrete instance of the collaborators

    IPv4 only, enough to evaluate the table on concrete addresses: an
    address is its four bytes, a network is base bytes and mask bytes, a
    multiaddr is its list of (protocol, value) components.  [Contains]
    compares the masked bytes and [String] prints [a.b.c.d/len] as Go's
    do. *)
Module Net4.
Local Open Scope Z_scope.

Record ipnet := IPNet4 { n_IP : list Z; n_Mask : list Z }.

Fixpoint masked_eq (nn m ip : list Z) : bool :=
  match nn, m, ip with
  | [], [], [] => true
  | a :: nn', b :: m', c :: ip' =>
      (Z.land a b =? Z.land c b) && masked_eq nn' m' ip'
  | _, _, _ => false
  end.

Definition Contains (n : ipnet) (ip : list Z) : bool :=
  masked_eq (n_IP n) (n_Mask n) ip.

Definition itoa (z : Z) : string :=
  DecimalString.NilZero.string_of_int (Z.to_int z).

Definition dotted (bs : list Z) : string :=
  String.concat "." (map itoa bs).

Definition ones (b : Z) : Z :=
  Z.of_nat (length (filter (fun i => Z.testbit b i = true) [0; 1; 2; 3; 4; 5; 6; 7])).

Definition ipnet_String (n : ipnet) : string :=
  (dotted (n_IP n) +:+ "/" +:+ itoa (foldr Z.add 0 (map ones (n_Mask n))))%string.

Definition mask_byte (bits i : Z) : Z :=
  let k := Z.min 8 (Z.max 0 (bits - 8 * i)) in 256 - 2 ^ (8 - k).

(* the network ParseCIDR returns for a.b.c.d/bits *)
Definition cidr (ip : list Z) (bits : Z) : ipnet :=
  let m := map (mask_byte bits) [0; 1; 2; 3] in
  IPNet4 (zip_with Z.land ip m) m.

Definition digit (c : Ascii.ascii) : option Z :=
  let n := Z.of_nat (Ascii.nat_of_ascii c) in
  if (48 <=? n) && (n <=? 57) then Some (n - 48) else None.

Fixpoint parse_dotted (s : string) (cur : option Z) (acc : list Z)
    : option (list Z) :=
  match s with
  | EmptyString =>
      match cur with Some v => Some (acc ++ [v]) | None => None end
  | String c s' =>
      if Ascii.eqb c "."%char then
        match cur with
        | Some v => parse_dotted s' None (acc ++ [v])
        | None => None
        end
      else
        match digit c with
        | Some d =>
            let v := 10 * default 0 cur + d in
            if v <=? 255 then parse_dotted s' (Some v) acc else None
        | None => None
        end
  end.

Definition ParseIP (s : string) : option (list Z) :=
  match parse_dotted s None [] with
  | Some [a; b; c; d] => Some [a; b; c; d]
  | _ => None
  end.

Definition multiaddr := list (string * string).

Definition Split (a : multiaddr) : list multiaddr :=
  map (fun c => [c]) a.

(* only a leading /ip4 component converts *)
Definition ToNetAddr (a : multiaddr) : option string :=
  match a with
  | [(proto, v)] => if String.eqb proto "ip4" then Some v else None
  | _ => None
  end.

#[export] Instance deps : Deps := {|
  IP := list Z;
  IPNet := ipnet;
  Multiaddr := multiaddr;
  NetAddr := string;
  IPNet_Contains := Contains;
  IPNet_String := ipnet_String;
  ma_Split := Split;
  manet_ToNetAddr := ToNetAddr;
  NetAddr_String := fun s => s;
  net_ParseIP := ParseIP;
  growslice := fun old _ => (2 * old)%nat;
|}.
End Net4.

(** ** Concrete tables *)
Module Ex.
Import Net4.
Local Open Scope Z_scope.

Definition p24 : @IPNet deps := cidr [1; 2; 3; 0] 24.
Definition p25 : @IPNet deps := cidr [1; 2; 3; 128] 25.

Definition ip_inside : @IP deps := [1; 2; 3; 1].
Definition ip_outside : @IP deps := [1; 2; 4; 1].

(* /ip4/1.2.3.1/tcp/123, inside 1.2.3.0/24 *)
Definition inside : @Multiaddr deps := [("ip4", "1.2.3.1"); ("tcp", "123")]%string.
(* /ip4/1.2.4.1/tcp/123, outside 1.2.3.0/24 *)
Definition outside : @Multiaddr deps := [("ip4", "1.2.4.1"); ("tcp", "123")]%string.
(* /dns4/example.com/tcp/123: the leading component is no IP *)
Definition unparsed : @Multiaddr deps := [("dns4", "example.com"); ("tcp", "123")]%string.

(** The table [NewFilters(); AddDialFilter(1.2.3.0/24)] builds, at
    location 0. *)
Definition m_deny : mem :=
  snd (bind NewFilters (fun fs => AddDialFilter fs p24) empty_mem).

(** The same table built after another one, so at location 1 and with
    its array elsewhere. *)
Definition m_deny_other : mem :=
  snd (bind NewFilters
         (fun _ => bind NewFilters (fun fs => AddDialFilter fs p24)) empty_mem).

(** A table with default allow and two rules of one canonical string,
    an allow and then a deny of 1.2.3.0/24.  The methods of this file
    do not build it from an empty table; it is the legacy state, and the
    state a caller reaches by changing an [IPNet] the table holds by
    pointer. *)
Definition m_dup : mem :=
  Mem [MkFilters false (Slice (Some 0%nat) 0 2 2)]
      [FilterEntry p24 false; FilterEntry p24 true]
      [[Some 0%nat; Some 1%nat]] [] [].
End Ex.

(** ** What a memory represents, and the lock discipline of a log *)
Section Spec.
Context `{Deps}.

(** The header [s] fits the heap [h]: its capacity lies inside its
    array. *)
Definition sl_ok {X} (h : arrays X) (s : slice) : Prop :=
  sl_len s <= sl_cap s /\
  match sl_arr s with
  | Some a => exists d, h !! a = Some d /\ sl_off s + sl_cap s <= length d
  | None => sl_cap s = 0
  end.

(** [s] is a well-formed slice of [h] holding exactly [xs]. *)
Definition sl_repr {X} (h : arrays X) (s : slice) (xs : list (option X)) : Prop :=
  sl_ok h s /\ sl_data h s = Some xs.

(** The table at [fs] holds the default [d] and the rules [es], oldest
    first.  The slots of the rule slice point to pairwise distinct,
    allocated entries. *)
Definition Repr (m : mem) (fs : loc) (d : bool) (es : list filterEntry) : Prop :=
  exists T ps,
    objs m !! fs = Some T /\
    RejectByDefault T = d /\
    sl_repr (earrays m) (filters T) (Some <$> ps) /\
    NoDup ps /\
    Forall2 (fun p e => entries m !! p = Some e) ps es.

(** The leading component of a multiaddr as an IP, the way [AddrBlocked]
    obtains it; [None] when any of its three steps fails. *)
Definition host_ip (a : Multiaddr) : option IP :=
  match ma_Split a with
  | [] => None
  | maddr0 :: _ =>
      match manet_ToNetAddr maddr0 with
      | Some netaddr => net_ParseIP (NetAddr_String netaddr)
      | None => None
      end
  end.

(** One step of the scan: a rule containing the address sets the
    decision. *)
Definition scan_step (ip : IP) (dec : bool) (e : filterEntry) : bool :=
  if IPNet_Contains (f e) ip then reject e else dec.

(** The decision of the scan over the rules, oldest first. *)
Definition scan (ip : IP) (d : bool) (es : list filterEntry) : bool :=
  fold_left (scan_step ip) es d.

(** The decision as a function of the default, the rules and the
    address. *)
Definition decision (d : bool) (es : list filterEntry) (a : Multiaddr) : bool :=
  match host_ip a with
  | Some ip => scan ip d es
  | None => d
  end.

(** The memories agree on everything but the log. *)
Definition same_heaps (m m' : mem) : Prop :=
  objs m' = objs m /\ entries m' = entries m /\
  earrays m' = earrays m /\ narrays m' = narrays m.

(** The rules [p] names: those with the same canonical string. *)
Definition same_prefix (p : IPNet) (e : filterEntry) : Prop :=
  IPNet_String (f e) = IPNet_String p.

#[global] Instance same_prefix_dec p e : Decision (same_prefix p e).
Proof. unfold same_prefix. apply _. Defined.

(** What [find] returns on the rules [es]: the index of the oldest rule
    [p] names, or -1. *)
Definition find_index (p : IPNet) (es : list filterEntry) : Z :=
  match list_find (same_prefix p) es with
  | Some (i, _) => Z.of_nat i
  | None => (-1)%Z
  end.

(** The rules after [AddDialFilter] ([b = true]) or [AddAllowFilter]
    ([b = false]) of [p]: the oldest rule [p] names gets the action, or
    a new rule goes to the end. *)
Definition rules_add (b : bool) (p : IPNet) (es : list filterEntry)
    : list filterEntry :=
  match list_find (same_prefix p) es with
  | Some (i, e) => <[i := FilterEntry (f e) b]> es
  | None => es ++ [FilterEntry p b]
  end.

(** The rules after [Remove] of [p]: the oldest rule [p] names goes. *)
Definition rules_remove (p : IPNet) (es : list filterEntry)
    : list filterEntry :=
  match list_find (same_prefix p) es with
  | Some (i, _) => delete i es
  | None => es
  end.

(** The array of [out], when it has one, was allocated at or after
    [n0]. *)
Definition allocated_from (n0 : nat) (out : slice) : Prop :=
  match sl_arr out with
  | Some a => n0 <= a
  | None => True
  end.

(** The memory [m] with the events [tr] appended to its log. *)
Definition log_add (tr : list event) (m : mem) : mem :=
  set_log (log m ++ tr) m.

(** The events of a method body: no call on the mutex, and writes only
    when [wr]. *)
Definition body_event (wr : bool) (e : event) : bool :=
  match e with
  | EvRead _ => true
  | EvWrite _ => wr
  | _ => false
  end.

(** A log of body events only. *)
Definition quiet (wr : bool) (tr : list event) : Prop :=
  forallb (body_event wr) tr = true.

Inductive lockmode := Unlocked | Shared | Exclusive.

(** Runs a log against the mutex of [fs]: a guarded object may be read
    only while the lock is held and written only while it is held
    exclusively; the mutex is never locked twice nor unlocked while
    free.  The result is the final mode, [None] on a violation. *)
Fixpoint check (fs : loc) (guarded : object -> bool) (st : lockmode)
    (tr : list event) : option lockmode :=
  match tr with
  | [] => Some st
  | EvLock l :: tr' =>
      match st with
      | Unlocked => if decide (l = fs) then check fs guarded Exclusive tr' else None
      | _ => None
      end
  | EvUnlock l :: tr' =>
      match st with
      | Exclusive => if decide (l = fs) then check fs guarded Unlocked tr' else None
      | _ => None
      end
  | EvRLock l :: tr' =>
      match st with
      | Unlocked => if decide (l = fs) then check fs guarded Shared tr' else None
      | _ => None
      end
  | EvRUnlock l :: tr' =>
      match st with
      | Shared => if decide (l = fs) then check fs guarded Unlocked tr' else None
      | _ => None
      end
  | EvRead o :: tr' =>
      if guarded o then
        match st with
        | Unlocked => None
        | _ => check fs guarded st tr'
        end
      else check fs guarded st tr'
  | EvWrite o :: tr' =>
      if guarded o then
        match st with
        | Exclusive => check fs guarded st tr'
        | _ => None
        end
      else check fs guarded st tr'
  end.

(** The lock guards the rule sequence: the [filters] field, the backing
    arrays and the entries. *)
Definition guards_rules (o : object) : bool :=
  match o with
  | ObjField _ FRejectByDefault => false
  | _ => true
  end.

(** The lock guards the rule sequence and the default as one unit. *)
Definition guards_all (o : object) : bool := true.

(** A critical section under the read lock of [fs]: [RLock], then reads
    only, then [RUnlock]. *)
Definition shared_section (fs : loc) (tr : list event) : Prop :=
  exists body, tr = [EvRLock fs] ++ body ++ [EvRUnlock fs] /\ quiet false body.

(** A critical section under the write lock of [fs]: [Lock], then reads
    and writes, then [Unlock]. *)
Definition exclusive_section (fs : loc) (tr : list event) : Prop :=
  exists body, tr = [EvLock fs] ++ body ++ [EvUnlock fs] /\ quiet true body.

(** The state of a [sync.RWMutex]: free, held by [n + 1] readers, or
    held by one writer. *)
Inductive rwstate := Free | Reading (n : nat) | Writing.

(** One event against the mutex of [fs]: [Lock] needs the mutex free,
    [RLock] needs it free of a writer, and an unlock needs the matching
    lock held; [None] when the call would block or fault.  Accesses do
    not involve the mutex. *)
Definition rw_step (fs : loc) (st : rwstate) (e : event) : option rwstate :=
  match e with
  | EvLock l =>
      if decide (l = fs) then
        match st with Free => Some Writing | _ => None end
      else Some st
  | EvUnlock l =>
      if decide (l = fs) then
        match st with Writing => Some Free | _ => None end
      else Some st
  | EvRLock l =>
      if decide (l = fs) then
        match st with
        | Free => Some (Reading 0)
        | Reading n => Some (Reading (S n))
        | Writing => None
        end
      else Some st
  | EvRUnlock l =>
      if decide (l = fs) then
        match st with
        | Reading 0 => Some Free
        | Reading (S n) => Some (Reading n)
        | _ => None
        end
      else Some st
  | EvRead _ | EvWrite _ => Some st
  end.

(** The mutex of [fs], in state [st], admits the events in this order. *)
Fixpoint admits (fs : loc) (st : rwstate) (tr : list event) : bool :=
  match tr with
  | [] => true
  | e :: tr' =>
      match rw_step fs st e with
      | Some st' => admits fs st' tr'
      | None => false
      end
  end.

(** [merge tr1 tr2 tr]: [tr] interleaves the events of two goroutines,
    keeping the order of each. *)
Inductive merge : list event -> list event -> list event -> Prop :=
| merge_nil : merge [] [] []
| merge_l e tr1 tr2 tr : merge tr1 tr2 tr -> merge (e :: tr1) tr2 (e :: tr)
| merge_r e tr1 tr2 tr : merge tr1 tr2 tr -> merge tr1 (e :: tr2) (e :: tr).

(** The outcome [r] of a listing method called in [m] on the table at
    [fs], which holds [d] and [es]: the returned slice holds the prefixes
    of the rules whose action is [want], oldest first; the table and its
    memory are as before; the slice has an array of its own, allocated by
    the call, and the arrays that existed are untouched; a later add or
    remove on the table does not reach the slice's memory, and whatever is
    written to that memory does not reach the table. *)
Definition listing (want : bool) (m : mem) (fs : loc) (d : bool)
    (es : list filterEntry) (r : outcome slice * mem) : Prop :=
  exists out m',
    r = (Ok out, m') /\
    sl_repr (narrays m') out (Some <$> (f <$> filter (fun e => reject e = want) es)) /\
    objs m' = objs m /\ entries m' = entries m /\ earrays m' = earrays m /\
    Repr m' fs d es /\
    allocated_from (length (narrays m)) out /\
    (forall a, a < length (narrays m) -> narrays m' !! a = narrays m !! a) /\
    (forall p, narrays (snd (AddDialFilter fs p m')) = narrays m' /\
               narrays (snd (AddAllowFilter fs p m')) = narrays m' /\
               narrays (snd (Remove fs p m')) = narrays m') /\
    (forall h, Repr (set_narrays h m') fs d es).
End Spec.

(** ** Sequences of calls, and what a computation may do *)
Section Calls.
Context `{Deps}.
Local Open Scope go_scope.




(** However [c] ends, by return or by panic, it has allocated or freed
    no [Filters] object and has logged body events only: no call on a
    mutex, and writes only when [wr]. *)
Definition steady (wr : bool) {A} (c : M A) : Prop :=
  forall m r m',
    c m = (r, m') ->
    length (objs m') = length (objs m) /\
    exists tr, log m' = log m ++ tr /\ quiet wr tr.

(* f.filters = append(f.filters[:idx], f.filters[idx+1:]...), the
   statement that deletes slot [idx] *)
Definition remove_at (fs : loc) (idx : Z) : M unit :=
  let* s1 := get_filters fs in
  let* front := lift (sl_to s1 idx) in
  let* s2 := get_filters fs in
  let* back := lift (sl_from s2 (idx + 1)) in
  let* tail := edata back in
  let* s' := eappend front tail in
  set_filters fs s'.

(** At most one rule per canonical string. *)
Definition unique_prefixes (es : list filterEntry) : Prop :=
  NoDup ((fun e => IPNet_String (f e)) <$> es).
End Calls.

(** ** The version that always appends (src/unnamed/part_000, second file)

    [find], [AddrBlocked] and [NewFilters] have the text of the current
    version and are shared with it.  The adds append without looking for
    the prefix, [Remove] deletes in a loop, and [Filters] lists every
    rule. *)
Module Appending.
Section Code.
Context `{Deps}.
Local Open Scope go_scope.

(* func (fs *Filters) AddDialFilter(f *net.IPNet) *)
Definition AddDialFilter (fs : loc) (p : IPNet) : M unit :=
  mu_Lock fs;;
  defer (mu_Unlock fs)
    (let* s := get_filters fs in
     let* ft := new_entry p true in
     let* s' := eappend s [ft] in
     set_filters fs s').

(* func (fs *Filters) AddAllowFilter(f *net.IPNet) *)
Definition AddAllowFilter (fs : loc) (p : IPNet) : M unit :=
  mu_Lock fs;;
  defer (mu_Unlock fs)
    (let* s := get_filters fs in
     let* ft := new_entry p false in
     let* s' := eappend s [ft] in
     set_filters fs s').

(** The text the two adds share. *)
Definition add_with (b : bool) (fs : loc) (p : IPNet) : M unit :=
  mu_Lock fs;;
  defer (mu_Unlock fs)
    (let* s := get_filters fs in
     let* ft := new_entry p b in
     let* s' := eappend s [ft] in
     set_filters fs s').

(* for _, ff := range s { out = append(out, ff.f) } *)
Fixpoint Filters_loop (s : slice) (idx n : nat) (out : slice) : M slice :=
  match n with
  | O => ret out
  | S n' =>
      let* ff := eindex s idx in
      let* e := load ff in
      let* out' := nappend out [Some (f e)] in
      Filters_loop s (S idx) n' out'
  end.

(* func (f *Filters) Filters() []*net.IPNet *)
Definition Filters_Filters (fs : loc) : M slice :=
  let out := nil_slice in
  mu_RLock fs;;
  defer (mu_RUnlock fs)
    (let* s := get_filters fs in
     Filters_loop s 0 (sl_len s) out).

(* for idx := f.find(ff); idx != -1; idx = f.find(ff) {
     f.filters = append(f.filters[:idx], f.filters[idx+1:]...) }
   [idx] is the index the init or post statement has found; [fuel] bounds
   the number of tests of the condition, and the result tells whether
   the loop ended within it. *)
Fixpoint Remove_loop (fuel : nat) (fs : loc) (ff : IPNet) (idx : Z) : M bool :=
  match fuel with
  | O => ret false
  | S fuel' =>
      if negb (idx =? -1)%Z then
        remove_at fs idx;;
        let* idx' := find fs ff in
        Remove_loop fuel' fs ff idx'
      else ret true
  end.

(* func (f *Filters) Remove(ff *net.IPNet) *)
Definition Remove (fuel : nat) (fs : loc) (ff : IPNet) : M bool :=
  mu_Lock fs;;
  defer (mu_Unlock fs)
    (let* idx := find fs ff in
     Remove_loop fuel fs ff idx).
End Code.
End Appending.

(** ** More concrete tables *)
Module Ex2.
Import Net4.

(** A table whose only slot holds the nil pointer: no method builds it;
    reading the slot's entry panics. *)
Definition m_nil_slot : mem :=
  Mem [MkFilters false (Slice (Some 0) 0 1 1)] [] [[None]] [] [].

(** An allow rule and then a deny rule of 1.2.3.0/24, as the appending
    adds build them. *)
Definition m_appended : mem :=
  snd (bind NewFilters
         (fun fs => bind (Appending.AddAllowFilter fs Ex.p24)
                      (fun _ => Appending.AddDialFilter fs Ex.p24)) empty_mem).

(** Deny 1.2.3.0/24, then allow 1.2.3.128/25, as the methods of the
    current version build them. *)
Definition m_two : mem :=
  snd (bind NewFilters
         (fun fs => bind (AddDialFilter fs Ex.p24)
                      (fun _ => AddAllowFilter fs Ex.p25)) empty_mem).

(* /ip4/1.2.3.200/tcp/123, inside 1.2.3.128/25 and 1.2.3.0/24 *)
Definition inside25 : @Multiaddr deps :=
  [("ip4", "1.2.3.200"); ("tcp", "123")]%string.
Definition ip_inside25 : @IP deps := [1; 2; 3; 200]%Z.
End Ex2.


(** * Properties *)

(** ** Slices *)
Section ArrayFacts.
Context {X : Type}.
Implicit Types (h : arrays X) (s : slice) (xs ys d : list (option X)).

Lemma sl_repr_length h s xs : sl_repr h s xs -> length xs = sl_len s.
Proof.
  intros [_ Hd]. unfold sl_data in Hd.
  destruct (sl_arr s) as [a|].
  - destruct (h !! a) as [d|]; [|done].
    case_decide; [|done]. simplify_eq.
    rewrite length_take, length_drop. lia.
  - case_decide; [|done]. simplify_eq. simpl. lia.
Qed.

Lemma sl_index_repr h s xs i x :
  sl_repr h s xs -> xs !! i = Some x -> sl_index h s i = Some x.
Proof.
  intros Hr Hi. pose proof (sl_repr_length _ _ _ Hr) as Hlen.
  pose proof (lookup_lt_Some _ _ _ Hi) as Hlt.
  destruct Hr as [_ Hd]. unfold sl_data in Hd. unfold sl_index.
  rewrite decide_True by lia.
  destruct (sl_arr s) as [a|].
  - destruct (h !! a) as [d|]; [|done].
    case_decide; [|done]. simplify_eq.
    rewrite lookup_take_lt, lookup_drop in Hi by lia. done.
  - case_decide; simplify_eq.
Qed.

Lemma sl_to_repr h s xs (i : nat) :
  sl_repr h s xs -> i <= sl_len s ->
  exists s1, sl_to s (Z.of_nat i) = Some s1 /\ sl_repr h s1 (take i xs) /\
             sl_len s1 = i /\ sl_cap s1 = sl_cap s.
Proof.
  intros [[Hle Hok] Hd] Hi. unfold sl_to.
  rewrite decide_True by lia. rewrite Nat2Z.id.
  eexists; split; [done|]. split; [|done].
  split.
  - split; simpl; [lia|done].
  - unfold sl_data in *; simpl.
    destruct (sl_arr s) as [a|].
    + destruct (h !! a) as [d|]; [|done].
      case_decide; [|done]. simplify_eq.
      rewrite decide_True by lia.
      rewrite take_take. f_equal. f_equal. lia.
    + case_decide; [|done]. simplify_eq.
      rewrite decide_True by lia. by rewrite take_nil.
Qed.

Lemma sl_from_data h s xs (i : nat) :
  sl_repr h s xs -> i <= sl_len s ->
  exists s2, sl_from s (Z.of_nat i) = Some s2 /\ sl_data h s2 = Some (drop i xs) /\
             sl_arr s2 = sl_arr s.
Proof.
  intros [[Hle Hok] Hd] Hi. unfold sl_from.
  rewrite decide_True by lia. rewrite Nat2Z.id.
  eexists; split; [done|]. split; [|done].
  unfold sl_data in *; simpl.
  destruct (sl_arr s) as [a|].
  - destruct (h !! a) as [d|]; [|done].
    case_decide; [|done]. simplify_eq.
    rewrite decide_True by lia.
    rewrite <- drop_drop, take_drop_commute.
    do 3 f_equal. lia.
  - case_decide; [|done]. simplify_eq.
    rewrite decide_True by lia. by rewrite drop_nil.
Qed.

Lemma write_at_length pos xs d :
  pos + length xs <= length d -> length (write_at pos xs d) = length d.
Proof.
  intros Hle. unfold write_at.
  rewrite !length_app, length_take, length_drop. lia.
Qed.

Lemma write_at_window off pos xs d :
  off <= pos -> pos + length xs <= length d ->
  take (pos - off + length xs) (drop off (write_at pos xs d))
  = take (pos - off) (drop off d) ++ xs.
Proof.
  intros Hoff Hle. unfold write_at.
  rewrite drop_app_le by (rewrite length_take; lia).
  rewrite app_assoc.
  rewrite take_app_length'.
  - f_equal. rewrite take_drop_commute. do 2 f_equal. lia.
  - rewrite length_app, length_drop, length_take. lia.
Qed.

(** [append] extends the contents by [ys]; it touches no array but the
    slice's own, and only allocates behind the heap. *)
Lemma sl_append_repr g h s xs ys :
  sl_repr h s xs ->
  exists h' s',
    sl_append g h s ys = Some (h', s') /\
    sl_repr h' s' (xs ++ ys) /\
    length h <= length h' /\
    (sl_arr s' = sl_arr s \/ sl_arr s' = Some (length h)) /\
    (forall a, Some a <> sl_arr s -> a < length h -> h' !! a = h !! a).
Proof.
  intros Hr. pose proof (sl_repr_length _ _ _ Hr) as Hlen.
  destruct Hr as [[Hle Hok] Hd]. unfold sl_append.
  case_decide as Hfit.
  - destruct ys as [|y ys].
    { exists h, s. rewrite app_nil_r. by repeat split; auto. }
    destruct (sl_arr s) as [a|] eqn:Ha.
    2:{ simpl in Hfit. lia. }
    destruct Hok as (d & Hha & Hbound).
    rewrite Hha. rewrite decide_True by lia. simpl in Hfit.
    eexists _, _; split; [done|].
    pose proof (lookup_lt_Some _ _ _ Hha) as Halt.
    assert (Hw : length (write_at (sl_off s + sl_len s) (y :: ys) d) = length d)
      by (apply write_at_length; simpl; lia).
    split; [|split; [|split]].
    + split.
      * split; [simpl in *; lia|simpl].
        eexists; split; [by apply list_lookup_insert_eq|]. lia.
      * unfold sl_data in *; simpl. rewrite Ha, Hha in Hd.
        rewrite list_lookup_insert_eq by done.
        case_decide; [|done]. simplify_eq.
        rewrite decide_True by lia. f_equal.
        pose proof (write_at_window (sl_off s) (sl_off s + sl_len s) (y :: ys) d) as Hwin.
        replace (sl_off s + sl_len s - sl_off s) with (sl_len s) in Hwin by lia.
        apply Hwin; simpl; lia.
    + rewrite length_insert. lia.
    + by left.
    + intros a' Hne _. apply list_lookup_insert_ne. congruence.
  - rewrite Hd.
    eexists _, _; split; [done|].
    split; [|split; [|split]].
    + split.
      * split; simpl; [lia|].
        eexists; split; [by apply list_lookup_middle|].
        rewrite !length_app, length_replicate. lia.
      * unfold sl_data; simpl.
        rewrite list_lookup_middle by done.
        rewrite decide_True by (rewrite !length_app, length_replicate; lia).
        rewrite drop_0, app_assoc. f_equal.
        apply take_app_length'. rewrite length_app. lia.
    + rewrite length_app. lia.
    + by right.
    + intros a' _ Hlt. by apply lookup_app_l.
Qed.
End ArrayFacts.

(** ** Running the memory accesses *)

Lemma bind_ok `{Deps} {A B} (c : M A) (k : A -> M B) (m : mem) a m' :
  c m = (Ok a, m') -> bind c k m = k a m'.
Proof. unfold bind. by intros ->. Qed.

(** Runs the first action of a [bind] with the equation [lem] proves. *)
Ltac mstep lem :=
  erewrite bind_ok; [|solve [eapply lem; (eassumption || done)]]; cbv beta.

Section Runs.
Context `{Deps}.
Implicit Types (m : mem) (fs : loc) (s : slice) (tr : list event).

Lemma log_add_nil m : log_add [] m = m.
Proof. destruct m. unfold log_add, set_log. simpl. by rewrite app_nil_r. Qed.

Lemma log_add_app tr1 tr2 m :
  log_add tr2 (log_add tr1 m) = log_add (tr1 ++ tr2) m.
Proof. unfold log_add, set_log. simpl. by rewrite app_assoc. Qed.

Lemma defer_ok {A} (d : M unit) (body : M A) m r m' m'' :
  body m = (r, m') -> d m' = (Ok tt, m'') -> defer d body m = (r, m'').
Proof. unfold defer. by intros -> ->. Qed.

Lemma emit_run e m : emit e m = (Ok tt, log_add [e] m).
Proof. done. Qed.

Lemma deref_run fs T m : objs m !! fs = Some T -> deref fs m = (Ok T, m).
Proof. unfold deref, lift. by intros ->. Qed.

Lemma get_RejectByDefault_run fs T m :
  objs m !! fs = Some T ->
  get_RejectByDefault fs m
  = (Ok (RejectByDefault T), log_add [EvRead (ObjField fs FRejectByDefault)] m).
Proof.
  intros HT. unfold get_RejectByDefault.
  mstep emit_run. by mstep deref_run.
Qed.

Lemma get_filters_run fs T m :
  objs m !! fs = Some T ->
  get_filters fs m = (Ok (filters T), log_add [EvRead (ObjField fs Ffilters)] m).
Proof.
  intros HT. unfold get_filters.
  mstep emit_run. by mstep deref_run.
Qed.

Lemma set_filters_run fs T s m :
  objs m !! fs = Some T ->
  set_filters fs s m
  = (Ok tt, set_objs (<[fs := MkFilters (RejectByDefault T) s]> (objs m))
              (log_add [EvWrite (ObjField fs Ffilters)] m)).
Proof.
  intros HT. unfold set_filters.
  mstep emit_run. by mstep deref_run.
Qed.

Lemma set_RejectByDefault_run fs T b m :
  objs m !! fs = Some T ->
  set_RejectByDefault fs b m
  = (Ok tt, set_objs (<[fs := MkFilters b (filters T)]> (objs m))
              (log_add [EvWrite (ObjField fs FRejectByDefault)] m)).
Proof.
  intros HT. unfold set_RejectByDefault.
  mstep emit_run. by mstep deref_run.
Qed.

Lemma mu_Lock_run fs T m :
  objs m !! fs = Some T -> mu_Lock fs m = (Ok tt, log_add [EvLock fs] m).
Proof. intros HT. unfold mu_Lock. by mstep deref_run. Qed.

Lemma mu_Unlock_run fs T m :
  objs m !! fs = Some T -> mu_Unlock fs m = (Ok tt, log_add [EvUnlock fs] m).
Proof. intros HT. unfold mu_Unlock. by mstep deref_run. Qed.

Lemma mu_RLock_run fs T m :
  objs m !! fs = Some T -> mu_RLock fs m = (Ok tt, log_add [EvRLock fs] m).
Proof. intros HT. unfold mu_RLock. by mstep deref_run. Qed.

Lemma mu_RUnlock_run fs T m :
  objs m !! fs = Some T -> mu_RUnlock fs m = (Ok tt, log_add [EvRUnlock fs] m).
Proof. intros HT. unfold mu_RUnlock. by mstep deref_run. Qed.

Lemma load_run p e m :
  entries m !! p = Some e ->
  load (Some p) m = (Ok e, log_add [EvRead (ObjEntry p)] m).
Proof.
  intros He. unfold load. mstep emit_run.
  unfold lift. simpl. by rewrite He.
Qed.

Lemma quiet_app wr tr1 tr2 : quiet wr tr1 -> quiet wr tr2 -> quiet wr (tr1 ++ tr2).
Proof. unfold quiet. rewrite forallb_app. by intros -> ->. Qed.

Lemma quiet_weaken tr : quiet false tr -> quiet true tr.
Proof.
  unfold quiet. induction tr as [|e tr IH]; [done|]. simpl.
  intros [He Htr]%andb_prop. rewrite IH by done.
  by destruct e.
Qed.

Lemma touch_run ev s m :
  exists tr, touch ev s m = (Ok tt, log_add tr m) /\
             (tr = [] \/ exists a, tr = [ev (ObjArray a)]).
Proof.
  unfold touch. destruct (sl_arr s) as [a|].
  - exists [ev (ObjArray a)]. split; [done|]. right. by exists a.
  - exists []. split; [|by left]. unfold ret. by rewrite log_add_nil.
Qed.

Lemma touch_read_run s m :
  exists tr, touch EvRead s m = (Ok tt, log_add tr m) /\ quiet false tr.
Proof.
  destruct (touch_run EvRead s m) as (tr & Hrun & [->|[a ->]]);
    (eexists; split; [eassumption|done]).
Qed.

Lemma eindex_run m s xs i x :
  sl_repr (earrays m) s xs -> xs !! i = Some x ->
  exists tr, eindex s i m = (Ok x, log_add tr m) /\ quiet false tr.
Proof.
  intros Hr Hi. unfold eindex.
  destruct (touch_read_run s m) as (tr & Hrun & Hq).
  exists tr. split; [|done].
  rewrite (bind_ok _ _ _ _ _ Hrun). unfold lift.
  change (earrays (log_add tr m)) with (earrays m).
  by rewrite (sl_index_repr _ _ _ _ _ Hr Hi).
Qed.

(** A slot of a represented table and the entry behind it. *)
Lemma slot_lookup m ps es i e :
  Forall2 (fun p e => entries m !! p = Some e) ps es ->
  es !! i = Some e ->
  exists p, ps !! i = Some p /\ (Some <$> ps) !! i = Some (Some p) /\
            entries m !! p = Some e.
Proof.
  intros HF Hi.
  destruct (Forall2_lookup_r _ _ _ _ _ HF Hi) as (p & Hp & Hpe).
  exists p. split; [done|]. split; [|done].
  by rewrite list_lookup_fmap, Hp.
Qed.

(** Reading slot [i] and the entry behind it. *)
Lemma slot_run m s ps es i e :
  sl_repr (earrays m) s (Some <$> ps) ->
  Forall2 (fun p e => entries m !! p = Some e) ps es ->
  es !! i = Some e ->
  exists tr, quiet false tr /\
    forall B (k : filterEntry -> M B),
      bind (eindex s i) (fun ft => bind (load ft) k) m = k e (log_add tr m).
Proof.
  intros Hr HF Hi.
  destruct (slot_lookup _ _ _ _ _ HF Hi) as (p & Hp & Hsp & Hpe).
  destruct (eindex_run _ _ _ _ _ Hr Hsp) as (tr1 & Hrun1 & Hq1).
  exists (tr1 ++ [EvRead (ObjEntry p)]). split.
  { by apply quiet_app. }
  intros B k'. rewrite (bind_ok _ _ _ _ _ Hrun1).
  erewrite bind_ok; [|by apply load_run].
  by rewrite log_add_app.
Qed.

Lemma find_loop_run p m s ps es idx n :
  sl_repr (earrays m) s (Some <$> ps) ->
  Forall2 (fun p e => entries m !! p = Some e) ps es ->
  idx + n = length es ->
  exists tr,
    find_loop (IPNet_String p) s idx n m
    = (Ok match list_find (same_prefix p) (drop idx es) with
          | Some (i, _) => Z.of_nat (idx + i)
          | None => (-1)%Z
          end, log_add tr m) /\
    quiet false tr.
Proof.
  intros Hr HF. revert idx m Hr HF.
  induction n as [|n IH]; intros idx m Hr HF Hlen.
  - exists []. rewrite drop_ge by lia. simpl.
    unfold ret. by rewrite log_add_nil.
  - destruct (lookup_lt_is_Some_2 es idx) as [e He]; [lia|].
    destruct (slot_run _ _ _ _ _ _ Hr HF He) as (tr1 & Hq1 & Hstep).
    simpl. rewrite Hstep.
    rewrite (drop_S _ _ _ He). simpl.
    destruct (String.eqb_spec (IPNet_String (f e)) (IPNet_String p)) as [Heq|Hne].
    + exists tr1. rewrite decide_True by done.
      split; [|done]. unfold ret. by rewrite Nat.add_0_r.
    + rewrite decide_False by done.
      destruct (IH (S idx) (log_add tr1 m)) as (tr2 & Hrun2 & Hq2); [done|done|lia|].
      exists (tr1 ++ tr2). split; [|by apply quiet_app].
      rewrite Hrun2, log_add_app. f_equal. f_equal.
      destruct (list_find _ _) as [[i y]|]; simpl; [|done].
      f_equal. lia.
Qed.

Lemma find_run p m fs T ps es :
  objs m !! fs = Some T ->
  sl_repr (earrays m) (filters T) (Some <$> ps) ->
  Forall2 (fun p e => entries m !! p = Some e) ps es ->
  exists tr,
    find fs p m = (Ok (find_index p es), log_add tr m) /\ quiet false tr.
Proof.
  intros HT Hr HF. unfold find.
  mstep get_filters_run.
  pose proof (sl_repr_length _ _ _ Hr) as Hlen.
  rewrite length_fmap in Hlen.
  assert (Hlen2 : length ps = length es) by (eapply Forall2_length; eassumption).
  destruct (find_loop_run p (log_add [EvRead (ObjField fs Ffilters)] m)
              (filters T) ps es 0 (sl_len (filters T)))
    as (tr & Hrun & Hq); [done|done|lia|].
  exists ([EvRead (ObjField fs Ffilters)] ++ tr).
  split; [|by apply quiet_app].
  rewrite Hrun, log_add_app. by rewrite drop_0.
Qed.

(** ** Evaluation *)

Lemma Repr_ext m m' fs d es :
  objs m' = objs m -> entries m' = entries m -> earrays m' = earrays m ->
  Repr m fs d es -> Repr m' fs d es.
Proof.
  intros Ho He Ha (T & ps & HT & Hd & Hr & Hnd & HF).
  exists T, ps. by rewrite Ho, He, Ha.
Qed.

Lemma AddrBlocked_loop_run ip m s ps es idx n rej :
  sl_repr (earrays m) s (Some <$> ps) ->
  Forall2 (fun p e => entries m !! p = Some e) ps es ->
  idx + n = length es ->
  exists tr,
    AddrBlocked_loop ip s idx n rej m
    = (Ok (scan ip rej (drop idx es)), log_add tr m) /\
    quiet false tr.
Proof.
  intros Hr HF. revert idx m rej Hr HF.
  induction n as [|n IH]; intros idx m rej Hr HF Hlen.
  - exists []. rewrite drop_ge by lia. simpl.
    unfold ret. by rewrite log_add_nil.
  - destruct (lookup_lt_is_Some_2 es idx) as [e He]; [lia|].
    destruct (slot_run _ _ _ _ _ _ Hr HF He) as (tr1 & Hq1 & Hstep).
    simpl. rewrite Hstep.
    rewrite (drop_S _ _ _ He). simpl.
    destruct (IH (S idx) (log_add tr1 m)
                (if IPNet_Contains (f e) ip then reject e else rej))
      as (tr2 & Hrun2 & Hq2); [done|done|lia|].
    exists (tr1 ++ tr2). split; [|by apply quiet_app].
    by rewrite Hrun2, log_add_app.
Qed.

(** On an address that fails to parse, [AddrBlocked] reads the default
    and nothing else. *)
Lemma AddrBlocked_unparsed m fs T a :
  objs m !! fs = Some T -> host_ip a = None ->
  AddrBlocked fs a m
  = (Ok (RejectByDefault T), log_add [EvRead (ObjField fs FRejectByDefault)] m).
Proof.
  intros HT Hip. unfold AddrBlocked, host_ip in *.
  destruct (ma_Split a) as [|maddr0 rest].
  { by apply get_RejectByDefault_run. }
  destruct (manet_ToNetAddr maddr0) as [netaddr|].
  2:{ by apply get_RejectByDefault_run. }
  rewrite Hip. by apply get_RejectByDefault_run.
Qed.

(** On an address that parses, [AddrBlocked] scans the rules under the
    read lock. *)
Lemma AddrBlocked_parsed m fs d es a ip :
  Repr m fs d es -> host_ip a = Some ip ->
  exists tr,
    AddrBlocked fs a m
    = (Ok (scan ip d es),
       log_add ([EvRLock fs; EvRead (ObjField fs FRejectByDefault)] ++ tr
                ++ [EvRUnlock fs]) m) /\
    quiet false tr.
Proof.
  intros (T & ps & HT & Hd & Hr & Hnd & HF) Hip.
  unfold AddrBlocked, host_ip in *.
  destruct (ma_Split a) as [|maddr0 rest]; [done|].
  destruct (manet_ToNetAddr maddr0) as [netaddr|]; [|done].
  rewrite Hip.
  mstep mu_RLock_run.
  assert (Hlen : length ps = length es) by (eapply Forall2_length; eassumption).
  pose proof (sl_repr_length _ _ _ Hr) as Hlen2.
  rewrite length_fmap in Hlen2.
  set (m1 := log_add [EvRead (ObjField fs Ffilters)]
               (log_add [EvRead (ObjField fs FRejectByDefault)]
                  (log_add [EvRLock fs] m))).
  destruct (AddrBlocked_loop_run ip m1 (filters T) ps es 0
              (sl_len (filters T)) (RejectByDefault T))
    as (tr & Hrun & Hq); [done|done|lia|].
  exists ([EvRead (ObjField fs Ffilters)] ++ tr).
  split; [|by apply quiet_app].
  erewrite defer_ok.
  - reflexivity.
  - mstep get_RejectByDefault_run. mstep get_filters_run.
    subst m1. rewrite Hrun. rewrite drop_0, Hd. reflexivity.
  - erewrite mu_RUnlock_run by eassumption.
    rewrite !log_add_app. by simpl.
Qed.

(** ** Mutation *)

Lemma locked_run {A} (body : M A) fs T m r m1 :
  objs m !! fs = Some T ->
  body (log_add [EvLock fs] m) = (r, m1) ->
  is_Some (objs m1 !! fs) ->
  bind (mu_Lock fs) (fun _ => defer (mu_Unlock fs) body) m
  = (r, log_add [EvUnlock fs] m1).
Proof.
  intros HT Hbody [T1 HT1].
  mstep mu_Lock_run.
  eapply defer_ok; [done|]. by eapply mu_Unlock_run.
Qed.

Lemma rlocked_run {A} (body : M A) fs T m r m1 :
  objs m !! fs = Some T ->
  body (log_add [EvRLock fs] m) = (r, m1) ->
  is_Some (objs m1 !! fs) ->
  bind (mu_RLock fs) (fun _ => defer (mu_RUnlock fs) body) m
  = (r, log_add [EvRUnlock fs] m1).
Proof.
  intros HT Hbody [T1 HT1].
  mstep mu_RLock_run.
  eapply defer_ok; [done|]. by eapply mu_RUnlock_run.
Qed.

Lemma store_reject_run p e b m :
  entries m !! p = Some e ->
  store_reject (Some p) b m
  = (Ok tt, set_entries (<[p := FilterEntry (f e) b]> (entries m))
              (log_add [EvWrite (ObjEntry p)] m)).
Proof.
  intros He. unfold store_reject. mstep emit_run.
  simpl. by rewrite He.
Qed.

Lemma eappend_run m s xs ys :
  sl_repr (earrays m) s xs ->
  exists h' s' tr,
    eappend s ys m = (Ok s', set_earrays h' (log_add tr m)) /\
    sl_repr h' s' (xs ++ ys) /\
    quiet true tr.
Proof.
  intros Hr. unfold eappend.
  destruct (sl_append_repr growslice _ _ _ ys Hr)
    as (h' & s' & Happ & Hr' & _).
  assert (exists tr,
    match ys with
    | [] => ret ()
    | _ :: _ => touch (if decide (sl_len s + length ys <= sl_cap s)
                       then EvWrite else EvRead) s
    end m = (Ok tt, log_add tr m) /\ quiet true tr) as (tr & Hrun & Hq).
  { destruct ys as [|y ys].
    - exists []. unfold ret. by rewrite log_add_nil.
    - destruct (touch_run (if decide (sl_len s + length (y :: ys) <= sl_cap s)
                           then EvWrite else EvRead) s m)
        as (tr & Hrun & [->|[a ->]]); (eexists; split; [eassumption|]);
        [done|by case_decide]. }
  exists h', s', tr. split; [|done].
  rewrite (bind_ok _ _ _ _ _ Hrun).
  change (earrays (log_add tr m)) with (earrays m). by rewrite Happ.
Qed.

Lemma entries_update (ents : list filterEntry) ps es i p e' :
  NoDup ps ->
  Forall2 (fun p e => ents !! p = Some e) ps es ->
  ps !! i = Some p ->
  Forall2 (fun q e => <[p := e']> ents !! q = Some e) ps (<[i := e']> es).
Proof.
  intros Hnd HF Hi.
  apply Forall2_same_length_lookup in HF as [Hlen HF].
  apply Forall2_same_length_lookup. split.
  { by rewrite length_insert. }
  intros j q e Hq He.
  destruct (decide (j = i)) as [->|Hne].
  - assert (q = p) as -> by congruence.
    rewrite list_lookup_insert_eq in He by (rewrite <- Hlen; by eapply lookup_lt_Some).
    simplify_eq.
    destruct (lookup_lt_is_Some_2 es i) as [e0 He0].
    { rewrite <- Hlen. by eapply lookup_lt_Some. }
    apply list_lookup_insert_eq. eapply lookup_lt_Some. by eapply HF.
  - rewrite list_lookup_insert_ne in He by done.
    rewrite list_lookup_insert_ne; [by eapply HF|].
    intros ->. apply Hne. symmetry. by eapply NoDup_lookup.
Qed.

Lemma entries_extend (ents : list filterEntry) ps es e' :
  NoDup ps ->
  Forall2 (fun p e => ents !! p = Some e) ps es ->
  NoDup (ps ++ [length ents]) /\
  Forall2 (fun q e => (ents ++ [e']) !! q = Some e)
          (ps ++ [length ents]) (es ++ [e']).
Proof.
  intros Hnd HF. split.
  - apply NoDup_app. split; [done|]. split; [|apply NoDup_singleton].
    intros q Hq ->%list_elem_of_singleton.
    apply list_elem_of_lookup in Hq as [j Hj].
    destruct (Forall2_lookup_l _ _ _ _ _ HF Hj) as (e & _ & He).
    apply lookup_lt_Some in He. lia.
  - apply Forall2_app.
    + eapply Forall2_impl; [done|]. intros q e Hq. simpl in *.
      by apply lookup_app_l_Some.
    + constructor; [|constructor]. by apply list_lookup_middle.
Qed.

(** [AddDialFilter] and [AddAllowFilter] on a represented table. *)
Lemma add_with_run b m fs d es p :
  Repr m fs d es ->
  exists m' tr,
    add_with b fs p m = (Ok tt, m') /\
    Repr m' fs d (rules_add b p es) /\
    narrays m' = narrays m /\
    log m' = log m ++ [EvLock fs] ++ tr ++ [EvUnlock fs] /\
    quiet true tr.
Proof.
  intros (T & ps & HT & Hd & Hr & Hnd & HF). unfold add_with.
  set (m0 := log_add [EvLock fs] m).
  destruct (find_run p m0 fs T ps es) as (tr1 & Hfind & Hq1); [done..|].
  unfold rules_add, find_index in *.
  destruct (list_find (same_prefix p) es) as [[i e]|] eqn:Hlf.
  - apply list_find_Some in Hlf as (Hi & _ & _).
    destruct (slot_lookup _ _ _ _ _ HF Hi) as (q & Hq & Hsq & Hqe).
    destruct (eindex_run (log_add [EvRead (ObjField fs Ffilters)] (log_add tr1 m0))
                (filters T) _ i _ Hr Hsq) as (tr2 & Hidx & Hq2).
    eexists _, (tr1 ++ [EvRead (ObjField fs Ffilters)] ++ tr2 ++ [EvWrite (ObjEntry q)]).
    split; [|split; [|split; [|split]]].
    + eapply locked_run; [done| |].
      * rewrite (bind_ok _ _ _ _ _ Hfind).
        replace (negb (Z.of_nat i =? -1)%Z) with true
          by (symmetry; apply negb_true_iff, Z.eqb_neq; lia).
        mstep get_filters_run.
        unfold eindex_int. rewrite decide_True by lia. rewrite Nat2Z.id.
        rewrite (bind_ok _ _ _ _ _ Hidx).
        by apply store_reject_run.
      * by exists T.
    + exists T, ps. simpl. split_and!; try done.
      by eapply entries_update.
    + done.
    + simpl. rewrite <- !app_assoc. simpl. by rewrite <- !app_assoc.
    + repeat apply quiet_app; try done. by apply quiet_weaken. by apply quiet_weaken.
  - set (m1 := log_add [EvRead (ObjField fs Ffilters)] (log_add tr1 m0)).
    set (m2 := set_entries (entries m ++ [FilterEntry p b]) m1).
    destruct (eappend_run m2 (filters T) _ [Some (length (entries m))] Hr)
      as (h' & s' & tr2 & Happ & Hr' & Hq2).
    destruct (entries_extend _ _ _ (FilterEntry p b) Hnd HF) as [Hnd' HF'].
    pose proof (lookup_lt_Some _ _ _ HT) as Hfs.
    eexists _, (tr1 ++ [EvRead (ObjField fs Ffilters)] ++ tr2
                ++ [EvWrite (ObjField fs Ffilters)]).
    split; [|split; [|split; [|split]]].
    + eapply locked_run; [done| |].
      * rewrite (bind_ok _ _ _ _ _ Hfind). simpl.
        mstep get_filters_run.
        unfold new_entry at 1. unfold bind at 1. fold m1. fold m2.
        rewrite (bind_ok _ _ _ _ _ Happ).
        by eapply set_filters_run.
      * simpl. rewrite list_lookup_insert_eq by done. by eexists.
    + eexists _, (ps ++ [length (entries m)]). simpl.
      rewrite list_lookup_insert_eq by done.
      split; [done|]. split; [done|]. simpl.
      rewrite fmap_app. by split_and!.
    + done.
    + simpl. rewrite <- !app_assoc. simpl. by rewrite <- !app_assoc.
    + repeat apply quiet_app; try done. by apply quiet_weaken.
Qed.

Lemma edata_run m s xs :
  sl_data (earrays m) s = Some xs ->
  exists tr, edata s m = (Ok xs, log_add tr m) /\ quiet false tr.
Proof.
  intros Hd. unfold edata.
  destruct (touch_read_run s m) as (tr & Hrun & Hq).
  exists tr. split; [|done].
  rewrite (bind_ok _ _ _ _ _ Hrun). unfold lift.
  change (earrays (log_add tr m)) with (earrays m).
  by rewrite Hd.
Qed.

(** [Remove] on a represented table. *)
Lemma Remove_run m fs d es p :
  Repr m fs d es ->
  exists m' tr,
    Remove fs p m = (Ok tt, m') /\
    Repr m' fs d (rules_remove p es) /\
    narrays m' = narrays m /\
    entries m' = entries m /\
    log m' = log m ++ [EvLock fs] ++ tr ++ [EvUnlock fs] /\
    quiet true tr /\
    (list_find (same_prefix p) es = None ->
     objs m' = objs m /\ earrays m' = earrays m).
Proof.
  intros (T & ps & HT & Hd & Hr & Hnd & HF). unfold Remove.
  set (m0 := log_add [EvLock fs] m).
  destruct (find_run p m0 fs T ps es) as (tr1 & Hfind & Hq1); [done..|].
  unfold rules_remove, find_index in *.
  destruct (list_find (same_prefix p) es) as [[i e]|] eqn:Hlf.
  - apply list_find_Some in Hlf as (Hi & _ & _).
    pose proof (sl_repr_length _ _ _ Hr) as Hlen.
    rewrite length_fmap in Hlen.
    assert (Hlen2 : length ps = length es) by (eapply Forall2_length; eassumption).
    pose proof (lookup_lt_Some _ _ _ Hi) as Hlt.
    destruct (sl_to_repr _ _ _ i Hr) as (front & Hto & Hfront & _); [lia|].
    destruct (sl_from_data _ _ _ (S i) Hr) as (back & Hfrom & Hback & _); [lia|].
    set (m1 := log_add [EvRead (ObjField fs Ffilters)]
                 (log_add [EvRead (ObjField fs Ffilters)] (log_add tr1 m0))).
    destruct (edata_run m1 back _ Hback) as (tr2 & Hdata & Hq2).
    destruct (eappend_run (log_add tr2 m1) front _ (drop (S i) (Some <$> ps)) Hfront)
      as (h' & s' & tr3 & Happ & Hr' & Hq3).
    pose proof (lookup_lt_Some _ _ _ HT) as Hfs.
    eexists _, (tr1 ++ [EvRead (ObjField fs Ffilters)]
                ++ [EvRead (ObjField fs Ffilters)] ++ tr2 ++ tr3
                ++ [EvWrite (ObjField fs Ffilters)]).
    split; [|split; [|split; [|split; [|split; [|split]]]]].
    + eapply locked_run; [done| |].
      * rewrite (bind_ok _ _ _ _ _ Hfind).
        replace (negb (Z.of_nat i =? -1)%Z) with true
          by (symmetry; apply negb_true_iff, Z.eqb_neq; lia).
        mstep get_filters_run.
        unfold lift at 1. rewrite Hto. unfold bind at 1.
        mstep get_filters_run.
        replace (Z.of_nat i + 1)%Z with (Z.of_nat (S i)) by lia.
        unfold lift at 1. rewrite Hfrom. unfold bind at 1.
        fold m1. rewrite (bind_ok _ _ _ _ _ Hdata).
        rewrite (bind_ok _ _ _ _ _ Happ).
        by eapply set_filters_run.
      * simpl. rewrite list_lookup_insert_eq by done. by eexists.
    + eexists _, (delete i ps). simpl.
      rewrite list_lookup_insert_eq by done.
      split; [done|]. split; [done|]. simpl.
      rewrite list_fmap_delete, delete_take_drop.
      split_and!; try done.
      * eapply sublist_NoDup; [done|]. apply sublist_delete.
      * by apply Forall2_delete.
    + done.
    + done.
    + simpl. rewrite <- !app_assoc. simpl. by rewrite <- !app_assoc.
    + repeat apply quiet_app; try done; by apply quiet_weaken.
    + done.
  - eexists _, tr1.
    split; [|split; [|split; [|split; [|split; [|split]]]]].
    + eapply locked_run; [done| |].
      * rewrite (bind_ok _ _ _ _ _ Hfind). simpl. reflexivity.
      * by exists T.
    + by exists T, ps.
    + done.
    + done.
    + simpl. by rewrite <- !app_assoc.
    + by apply quiet_weaken.
    + done.
Qed.

(** [NewFilters] allocates an empty table with default allow. *)
Lemma NewFilters_run m :
  exists m',
    NewFilters m = (Ok (length (objs m)), m') /\
    Repr m' (length (objs m)) false [] /\
    log m' = log m /\ narrays m' = narrays m /\ entries m' = entries m.
Proof.
  eexists. split; [reflexivity|]. split; [|done].
  eexists _, []. simpl.
  split; [by apply list_lookup_middle|].
  split; [done|]. split; [|split; [apply NoDup_nil_2|constructor]].
  split.
  - split; [done|]. simpl. exists []. split; [by apply list_lookup_middle|done].
  - unfold sl_data. simpl. by rewrite list_lookup_middle.
Qed.

(** ** Listing *)

Lemma Filters_loop_collect s idx n out m :
  Filters_loop s idx n out m = collect_loop reject s idx n out m.
Proof.
  revert idx out m. induction n as [|n IH]; intros idx out m; [done|].
  simpl. unfold bind.
  destruct (eindex s idx m) as [[ft|] m1]; [|done].
  destruct (load ft m1) as [[e|] m2]; [|done].
  destruct (reject e); [|apply IH].
  destruct (nappend out [Some (f e)] m2) as [[out'|] m3]; [apply IH|done].
Qed.

Lemma AllowFilters_loop_collect s idx n out m :
  AllowFilters_loop s idx n out m
  = collect_loop (fun e => negb (reject e)) s idx n out m.
Proof.
  revert idx out m. induction n as [|n IH]; intros idx out m; [done|].
  simpl. unfold bind.
  destruct (eindex s idx m) as [[ft|] m1]; [|done].
  destruct (load ft m1) as [[e|] m2]; [|done].
  destruct (negb (reject e)); [|apply IH].
  destruct (nappend out [Some (f e)] m2) as [[out'|] m3]; [apply IH|done].
Qed.

Lemma collect_loop_run keep m s ps es idx n out acc n0 :
  sl_repr (earrays m) s (Some <$> ps) ->
  Forall2 (fun p e => entries m !! p = Some e) ps es ->
  idx + n = length es ->
  sl_repr (narrays m) out (Some <$> acc) ->
  allocated_from n0 out ->
  n0 <= length (narrays m) ->
  exists m' out' tr,
    collect_loop keep s idx n out m = (Ok out', m') /\
    objs m' = objs m /\ entries m' = entries m /\ earrays m' = earrays m /\
    log m' = log m ++ tr /\ quiet false tr /\
    sl_repr (narrays m') out'
      (Some <$> (acc ++ (f <$> filter (fun e => keep e = true) (drop idx es)))) /\
    allocated_from n0 out' /\
    n0 <= length (narrays m') /\
    (forall a, a < n0 -> narrays m' !! a = narrays m !! a).
Proof.
  revert idx m out acc.
  induction n as [|n IH]; intros idx m out acc Hr HF Hlen Hout Hfresh Hn0.
  - exists m, out, []. rewrite drop_ge by lia.
    rewrite filter_nil, app_nil_r, app_nil_r. by split_and!.
  - destruct (lookup_lt_is_Some_2 es idx) as [e He]; [lia|].
    destruct (slot_run _ _ _ _ _ _ Hr HF He) as (tr1 & Hq1 & Hstep).
    simpl. rewrite Hstep. rewrite (drop_S _ _ _ He).
    destruct (keep e) eqn:Hkeep.
    + destruct (sl_append_repr growslice _ _ _ [Some (f e)] Hout)
        as (h' & out1 & Happ & Hout1 & Hgrow & Harr & Hframe).
      destruct (IH (S idx) (set_narrays h' (log_add tr1 m)) out1 (acc ++ [f e]))
        as (m' & out' & tr2 & Hrun & Ho & Hee & Hea & Hlog & Hq2 & Hres & Hfr & Hn & Hfrm);
        [done|done|lia| |..|].
      { simpl. by rewrite fmap_app. }
      { unfold allocated_from in *.
        destruct Harr as [->| ->]; [done|lia]. }
      { simpl. lia. }
      exists m', out', (tr1 ++ tr2).
      unfold nappend at 1. unfold bind at 1.
      change (narrays (log_add tr1 m)) with (narrays m). rewrite Happ.
      split; [done|]. split_and!; try done.
      * rewrite Hlog. simpl. by rewrite app_assoc.
      * by apply quiet_app.
      * rewrite filter_cons_True by done.
        rewrite fmap_cons, cons_middle, app_assoc. done.
      * intros a Ha. rewrite Hfrm by done. simpl.
        apply Hframe; [|lia].
        unfold allocated_from in Hfresh. intros Heq. rewrite <- Heq in Hfresh. lia.
    + destruct (IH (S idx) (log_add tr1 m) out acc)
        as (m' & out' & tr2 & Hrun & Ho & Hee & Hea & Hlog & Hq2 & Hres & Hfr & Hn & Hfrm);
        [done|done|lia|done|done|done|].
      exists m', out', (tr1 ++ tr2).
      split; [done|]. split_and!; try done.
      * rewrite Hlog. simpl. by rewrite app_assoc.
      * by apply quiet_app.
      * rewrite filter_cons_False; [done|]. by rewrite Hkeep.
Qed.

(** A listing method, for any loop that behaves as [collect_loop keep]. *)
Lemma listing_run keep (loop : slice -> nat -> nat -> slice -> M slice) m fs d es :
  (forall s idx n out m, loop s idx n out m = collect_loop keep s idx n out m) ->
  Repr m fs d es ->
  exists m' out tr,
    bind (mu_RLock fs)
      (fun _ => defer (mu_RUnlock fs)
         (bind (get_filters fs) (fun s => loop s 0 (sl_len s) nil_slice))) m
    = (Ok out, m') /\
    objs m' = objs m /\ entries m' = entries m /\ earrays m' = earrays m /\
    log m' = log m ++ [EvRLock fs] ++ tr ++ [EvRUnlock fs] /\ quiet false tr /\
    sl_repr (narrays m') out (Some <$> (f <$> filter (fun e => keep e = true) es)) /\
    allocated_from (length (narrays m)) out /\
    (forall a, a < length (narrays m) -> narrays m' !! a = narrays m !! a).
Proof.
  intros Hloop (T & ps & HT & Hd & Hr & Hnd & HF).
  pose proof (sl_repr_length _ _ _ Hr) as Hlen.
  rewrite length_fmap in Hlen.
  assert (Hlen2 : length ps = length es) by (eapply Forall2_length; eassumption).
  set (m1 := log_add [EvRead (ObjField fs Ffilters)] (log_add [EvRLock fs] m)).
  destruct (collect_loop_run keep m1 (filters T) ps es 0 (sl_len (filters T))
              nil_slice [] (length (narrays m)))
    as (m' & out' & tr2 & Hrun & Ho & Hee & Hea & Hlog & Hq2 & Hres & Hfr & Hn & Hfrm);
    [done|done|lia| |done|done|].
  { split; [|done]. split; [done|]. done. }
  exists (log_add [EvRUnlock fs] m'), out', ([EvRead (ObjField fs Ffilters)] ++ tr2).
  split.
  { eapply rlocked_run; [done| |].
    - mstep get_filters_run. fold m1. by rewrite Hloop.
    - rewrite Ho. by exists T. }
  rewrite drop_0 in Hres. simpl in Hres.
  split_and!; try done.
  simpl. rewrite Hlog. simpl. by rewrite <- !app_assoc.
Qed.
End Runs.

(** * The claims *)
Section Claims.
Context `{Deps}.
Implicit Types (m : mem) (fs : loc) (es : list filterEntry).

Lemma scan_app ip d es1 es2 :
  scan ip d (es1 ++ es2) = scan ip (scan ip d es1) es2.
Proof. unfold scan. apply fold_left_app. Qed.

Lemma scan_no_match ip d es :
  Forall (fun e => IPNet_Contains (f e) ip = false) es -> scan ip d es = d.
Proof.
  unfold scan. induction 1 as [|e es He _ IH]; [done|].
  simpl. unfold scan_step at 2. by rewrite He.
Qed.

Lemma scan_last_match ip d es1 e es2 :
  IPNet_Contains (f e) ip = true ->
  Forall (fun e' => IPNet_Contains (f e') ip = false) es2 ->
  scan ip d (es1 ++ e :: es2) = reject e.
Proof.
  intros He Hes2. rewrite scan_app. unfold scan at 1. simpl.
  fold (scan ip (scan_step ip (scan ip d es1) e) es2).
  rewrite scan_no_match by done. unfold scan_step. by rewrite He.
Qed.

(** [AddrBlocked] on a represented table, both paths. *)
Lemma AddrBlocked_run m fs d es a :
  Repr m fs d es ->
  exists tr, AddrBlocked fs a m = (Ok (decision d es a), log_add tr m).
Proof.
  intros HR. unfold decision.
  destruct (host_ip a) as [ip|] eqn:Hip.
  - destruct (AddrBlocked_parsed _ _ _ _ _ _ HR Hip) as (tr & Hrun & _).
    by eexists.
  - destruct HR as (T & ps & HT & Hd & _).
    eexists. rewrite <- Hd. by apply AddrBlocked_unparsed.
Qed.

(** C1: on an address whose leading component parses to an IP,
    [AddrBlocked] returns the decision of the scan that starts from the
    default and lets every rule containing the address, oldest first,
    set the decision; so the newest containing rule decides, whatever
    older rules say, and the default decides when no rule contains the
    address.  The result is the decision itself: true is DENY. *)
Theorem C1_evaluate_last_match_wins m fs d es a ip :
  Repr m fs d es ->
  host_ip a = Some ip ->
  (exists m', AddrBlocked fs a m
              = (Ok (fold_left (fun dec e =>
                                  if IPNet_Contains (f e) ip then reject e else dec)
                               es d), m')) /\
  (forall es1 e es2,
      es = es1 ++ e :: es2 ->
      IPNet_Contains (f e) ip = true ->
      Forall (fun e' => IPNet_Contains (f e') ip = false) es2 ->
      exists m', AddrBlocked fs a m = (Ok (reject e), m')) /\
  (Forall (fun e => IPNet_Contains (f e) ip = false) es ->
   exists m', AddrBlocked fs a m = (Ok d, m')).
Proof.
  intros HR Hip.
  destruct (AddrBlocked_parsed _ _ _ _ _ _ HR Hip) as (tr & Hrun & _).
  split_and!.
  - by eexists.
  - intros es1 e es2 -> He Hes2. eexists. rewrite Hrun.
    by rewrite (scan_last_match ip d es1 e es2).
  - intros Hnone. eexists. rewrite Hrun. by rewrite scan_no_match.
Qed.

(** C2: when the address cannot be decomposed or its leading component
    is no IP literal, [AddrBlocked] returns the table's default: it does
    not panic, and the only thing it touches is the [RejectByDefault]
    field, so the rules are not consulted.  This holds for any rule
    sequence, represented or not. *)
Theorem C2_unparsed_applies_default m fs T a :
  objs m !! fs = Some T ->
  host_ip a = None ->
  AddrBlocked fs a m
  = (Ok (RejectByDefault T), log_add [EvRead (ObjField fs FRejectByDefault)] m) /\
  (ma_Split a = [] \/
   (exists maddr0 rest, ma_Split a = maddr0 :: rest /\
                        manet_ToNetAddr maddr0 = None) \/
   (exists maddr0 rest netaddr,
       ma_Split a = maddr0 :: rest /\
       manet_ToNetAddr maddr0 = Some netaddr /\
       net_ParseIP (NetAddr_String netaddr) = None)).
Proof.
  intros HT Hip. split; [by apply AddrBlocked_unparsed|].
  unfold host_ip in Hip.
  destruct (ma_Split a) as [|maddr0 rest]; [by left|right].
  destruct (manet_ToNetAddr maddr0) as [netaddr|] eqn:Hna.
  - right. by exists maddr0, rest, netaddr.
  - left. by exists maddr0, rest.
Qed.
Lemma decision_no_rules d a : decision d [] a = d.
Proof. unfold decision. by destruct (host_ip a). Qed.

Lemma list_find_absent p es :
  Forall (fun e => ~ same_prefix p e) es -> list_find (same_prefix p) es = None.
Proof. intros Hall. by apply list_find_None. Qed.

(** C5: [NewFilters] cannot fail and returns a table with no rule and
    default allow; on that table [AddrBlocked] returns false for every
    address, in particular for every address that parses. *)
Theorem C5_new_table_blocks_nothing m :
  exists fs m',
    NewFilters m = (Ok fs, m') /\
    Repr m' fs false [] /\
    forall a, exists m'', AddrBlocked fs a m' = (Ok false, m'').
Proof.
  destruct (NewFilters_run m) as (m' & Hrun & HR & _).
  exists (length (objs m)), m'. split; [done|]. split; [done|].
  intros a. destruct (AddrBlocked_run _ _ _ _ a HR) as (tr & Ha).
  eexists. by rewrite Ha, decision_no_rules.
Qed.

(** C6: when no rule of the table has the canonical string of [p],
    [Remove] returns normally and changes nothing but the log: the heaps
    are the same, the table still holds the same default and rules, and
    [AddrBlocked] answers every address as before. *)
Theorem C6_remove_absent_is_noop m fs d es p :
  Repr m fs d es ->
  Forall (fun e => ~ same_prefix p e) es ->
  exists m',
    Remove fs p m = (Ok tt, m') /\
    same_heaps m m' /\
    Repr m' fs d es /\
    forall a, fst (AddrBlocked fs a m') = fst (AddrBlocked fs a m).
Proof.
  intros HR Habs. pose proof (list_find_absent _ _ Habs) as Hlf.
  destruct (Remove_run _ _ _ _ p HR)
    as (m' & tr & Hrun & HR' & Hn & He & _ & _ & Hsame).
  destruct (Hsame Hlf) as [Ho Ha].
  unfold rules_remove in HR'. rewrite Hlf in HR'.
  exists m'. split; [done|]. split; [done|]. split; [done|].
  intros a.
  destruct (AddrBlocked_run _ _ _ _ a HR) as (tr1 & ->).
  by destruct (AddrBlocked_run _ _ _ _ a HR') as (tr2 & ->).
Qed.

(** C8: the result of [AddrBlocked] is [decision d es a], a function of
    the default, the rule sequence and the address.  Two tables holding
    the same default and rules, in memories that may differ in layout, in
    other objects and in their logs, give the same answer to the same
    address; and the call leaves every heap as it was, so it keeps
    nothing that a later mutation could make stale. *)
Theorem C8_evaluate_is_pure m1 fs1 m2 fs2 d es a :
  Repr m1 fs1 d es ->
  Repr m2 fs2 d es ->
  exists m1' m2',
    AddrBlocked fs1 a m1 = (Ok (decision d es a), m1') /\
    AddrBlocked fs2 a m2 = (Ok (decision d es a), m2') /\
    same_heaps m1 m1' /\ same_heaps m2 m2'.
Proof.
  intros HR1 HR2.
  destruct (AddrBlocked_run _ _ _ _ a HR1) as (tr1 & Hrun1).
  destruct (AddrBlocked_run _ _ _ _ a HR2) as (tr2 & Hrun2).
  by eexists _, _.
Qed.
Lemma AddDialFilter_add_with fs p : AddDialFilter fs p = add_with true fs p.
Proof. done. Qed.

Lemma AddAllowFilter_add_with fs p : AddAllowFilter fs p = add_with false fs p.
Proof. done. Qed.

(** [AddDialFilter] for [b = true], [AddAllowFilter] for [b = false]. *)
Lemma add_run (b : bool) m fs d es p :
  Repr m fs d es ->
  exists m',
    (if b then AddDialFilter fs p m else AddAllowFilter fs p m) = (Ok tt, m') /\
    Repr m' fs d (rules_add b p es) /\
    narrays m' = narrays m.
Proof.
  intros HR.
  destruct (add_with_run b _ _ _ _ p HR) as (m' & tr & Hrun & HR' & Hn & _).
  exists m'. split; [|done]. by destruct b.
Qed.

Lemma rules_add_found b p es i e :
  list_find (same_prefix p) es = Some (i, e) ->
  rules_add b p es = <[i := FilterEntry (f e) b]> es.
Proof. unfold rules_add. by intros ->. Qed.

Lemma rules_add_absent b p es :
  list_find (same_prefix p) es = None ->
  rules_add b p es = es ++ [FilterEntry p b].
Proof. unfold rules_add. by intros ->. Qed.

(** After an add of [p] the rules hold a rule that [p] names. *)
Lemma rules_add_names b p es :
  exists e, e ∈ rules_add b p es /\ same_prefix p e.
Proof.
  unfold rules_add.
  destruct (list_find (same_prefix p) es) as [[i e]|] eqn:Hlf.
  - apply list_find_Some in Hlf as (Hi & Hp & _).
    exists (FilterEntry (f e) b). split; [|done].
    apply list_elem_of_insert. by eapply lookup_lt_Some.
  - exists (FilterEntry p b). split; [|done].
    apply elem_of_app. right. by apply list_elem_of_singleton.
Qed.

(** An add of a prefix that a rule already names keeps the length. *)
Lemma rules_add_length_named b p es e :
  e ∈ es -> same_prefix p e -> length (rules_add b p es) = length es.
Proof.
  intros He Hp.
  destruct (list_find_elem_of (same_prefix p) es e He Hp) as [[i e'] Hlf].
  rewrite (rules_add_found _ _ _ _ _ Hlf). apply length_insert.
Qed.

Lemma rules_add_strings b p es :
  NoDup ((fun e => IPNet_String (f e)) <$> es) ->
  NoDup ((fun e => IPNet_String (f e)) <$> rules_add b p es).
Proof.
  intros Hnd. unfold rules_add.
  destruct (list_find (same_prefix p) es) as [[i e]|] eqn:Hlf.
  - apply list_find_Some in Hlf as (Hi & _ & _).
    rewrite list_fmap_insert. simpl.
    rewrite list_insert_id; [done|]. by rewrite list_lookup_fmap, Hi.
  - rewrite fmap_app. apply NoDup_app. split; [done|].
    split; [|apply NoDup_singleton].
    intros x Hx Hx2. apply list_elem_of_fmap in Hx as (e & -> & He).
    simpl in Hx2. apply list_elem_of_singleton in Hx2.
    apply list_find_None in Hlf.
    exact (proj1 (Forall_forall _ _) Hlf e He Hx2).
Qed.

(** C4: on a table with at most one rule per canonical string,
    [AddDialFilter] ([b = true]) and [AddAllowFilter] ([b = false]) return
    normally and update in place: when a rule [p] names exists, that rule
    gets the action, at its position and with the length unchanged;
    otherwise a new rule goes to the end.  The table keeps at most one
    rule per string, and a further add of [p], of either kind, does not
    grow it. *)
Theorem C4_add_updates_in_place (b : bool) m fs d es p :
  Repr m fs d es ->
  NoDup ((fun e => IPNet_String (f e)) <$> es) ->
  exists m' es',
    (if b then AddDialFilter fs p m else AddAllowFilter fs p m) = (Ok tt, m') /\
    Repr m' fs d es' /\
    NoDup ((fun e => IPNet_String (f e)) <$> es') /\
    ((exists i e, es !! i = Some e /\ same_prefix p e /\
                  es' = <[i := FilterEntry (f e) b]> es /\
                  length es' = length es) \/
     (Forall (fun e => ~ same_prefix p e) es /\ es' = es ++ [FilterEntry p b])) /\
    (forall b2 : bool, exists m'' es'',
        (if b2 then AddDialFilter fs p m' else AddAllowFilter fs p m') = (Ok tt, m'') /\
        Repr m'' fs d es'' /\
        length es'' = length es').
Proof.
  intros HR Hnd.
  destruct (add_run b _ _ _ _ p HR) as (m' & Hrun & HR' & _).
  exists m', (rules_add b p es).
  split; [done|]. split; [done|]. split; [by apply rules_add_strings|]. split.
  - destruct (list_find (same_prefix p) es) as [[i e]|] eqn:Hlf.
    + left. exists i, e. rewrite (rules_add_found _ _ _ _ _ Hlf).
      apply list_find_Some in Hlf as (Hi & Hp & _).
      split_and!; try done. apply length_insert.
    + right. rewrite (rules_add_absent _ _ _ Hlf).
      split; [|done]. by apply list_find_None in Hlf.
  - intros b2.
    destruct (add_run b2 _ _ _ _ p HR') as (m'' & Hrun2 & HR'' & _).
    exists m'', (rules_add b2 p (rules_add b p es)).
    split; [done|]. split; [done|].
    destruct (rules_add_names b p es) as (e & He & Hp).
    by eapply rules_add_length_named.
Qed.

Lemma list_find_oldest p es1 e1 es2 :
  Forall (fun e => ~ same_prefix p e) es1 ->
  same_prefix p e1 ->
  list_find (same_prefix p) (es1 ++ e1 :: es2) = Some (length es1, e1).
Proof.
  intros Hes1 Hp. apply list_find_Some. split_and!.
  - by apply list_lookup_middle.
  - done.
  - intros j y Hj Hlt. rewrite lookup_app_l in Hj by done.
    apply (proj1 (Forall_forall _ _) Hes1 y).
    by eapply list_elem_of_lookup_2.
Qed.

(** C10: when several rules share the canonical string of [p],
    [AddDialFilter] and [AddAllowFilter] give the action to the oldest of
    them and leave every later rule as it was.  A later duplicate [e2]
    that is the newest rule containing an address therefore still decides
    that address with its own, unchanged action, whatever was added. *)
Theorem C10_add_updates_oldest_duplicate_only (b : bool) m fs d es1 e1 es2 p :
  Repr m fs d (es1 ++ e1 :: es2) ->
  Forall (fun e => ~ same_prefix p e) es1 ->
  same_prefix p e1 ->
  exists m',
    (if b then AddDialFilter fs p m else AddAllowFilter fs p m) = (Ok tt, m') /\
    Repr m' fs d (es1 ++ FilterEntry (f e1) b :: es2) /\
    forall a ip es3 e2 es4,
      host_ip a = Some ip ->
      es2 = es3 ++ e2 :: es4 ->
      same_prefix p e2 ->
      IPNet_Contains (f e2) ip = true ->
      Forall (fun e => IPNet_Contains (f e) ip = false) es4 ->
      exists m'', AddrBlocked fs a m' = (Ok (reject e2), m'').
Proof.
  intros HR Hes1 Hp.
  destruct (add_run b _ _ _ _ p HR) as (m' & Hrun & HR' & _).
  rewrite (rules_add_found _ _ _ _ _ (list_find_oldest _ _ _ es2 Hes1 Hp)) in HR'.
  rewrite insert_app_r_alt, Nat.sub_diag in HR' by done. simpl in HR'.
  exists m'. split; [done|]. split; [done|].
  intros a ip es3 e2 es4 Hip -> _ He2 Hes4.
  destruct (AddrBlocked_parsed _ _ _ _ _ _ HR' Hip) as (tr & Hrun' & _).
  eexists. rewrite Hrun'.
  replace (es1 ++ FilterEntry (f e1) b :: es3 ++ e2 :: es4)
    with ((es1 ++ FilterEntry (f e1) b :: es3) ++ e2 :: es4)
    by (by rewrite <- app_assoc).
  by rewrite scan_last_match.
Qed.
Lemma mutators_keep_narrays m fs d es p :
  Repr m fs d es ->
  narrays (snd (AddDialFilter fs p m)) = narrays m /\
  narrays (snd (AddAllowFilter fs p m)) = narrays m /\
  narrays (snd (Remove fs p m)) = narrays m.
Proof.
  intros HR.
  destruct (add_run true _ _ _ _ p HR) as (m1 & -> & _ & Hn1).
  destruct (add_run false _ _ _ _ p HR) as (m2 & -> & _ & Hn2).
  by destruct (Remove_run _ _ _ _ p HR) as (m3 & tr & -> & _ & Hn3 & _).
Qed.

Lemma listing_intro want keep loop m fs d es :
  (forall s idx n out m, loop s idx n out m = collect_loop keep s idx n out m) ->
  (forall e, keep e = true <-> reject e = want) ->
  Repr m fs d es ->
  listing want m fs d es
    (bind (mu_RLock fs)
       (fun _ => defer (mu_RUnlock fs)
          (bind (get_filters fs) (fun s => loop s 0 (sl_len s) nil_slice))) m).
Proof.
  intros Hloop Hkeep HR.
  destruct (listing_run keep loop _ _ _ _ Hloop HR)
    as (m' & out & tr & Hrun & Ho & He & Ha & _ & _ & Hout & Hfresh & Hframe).
  assert (HR' : Repr m' fs d es) by (by eapply Repr_ext).
  exists out, m'. split; [done|]. split_and!; try done.
  - by rewrite <- (list_filter_iff _ _ es Hkeep).
  - intros p. by apply (mutators_keep_narrays _ _ _ _ p HR').
Qed.

(** C7: [Filters] returns the prefixes of the rules whose action is deny
    and [AllowFilters] those whose action is allow, oldest first, in a
    slice with an array of its own that the call allocates; neither
    changes the table, and the returned slice is a copy: later adds and
    removes do not reach it and writes to it do not reach the table. *)
Theorem C7_listings_are_snapshots m fs d es :
  Repr m fs d es ->
  listing true m fs d es (Filters_Filters fs m) /\
  listing false m fs d es (AllowFilters fs m).
Proof.
  intros HR. split.
  - apply (listing_intro true reject Filters_loop); [|done|done].
    apply Filters_loop_collect.
  - apply (listing_intro false (fun e => negb (reject e)) AllowFilters_loop); [| |done].
    + apply AllowFilters_loop_collect.
    + intros e. apply negb_true_iff.
Qed.

Lemma check_app fs g st tr1 tr2 :
  check fs g st (tr1 ++ tr2)
  = match check fs g st tr1 with
    | Some st' => check fs g st' tr2
    | None => None
    end.
Proof.
  revert st. induction tr1 as [|e tr1 IH]; intros st; [done|].
  destruct e as [l|l|l|l|o|o]; simpl.
  1-4: destruct st; try done; case_decide; [apply IH|done].
  all: destruct (g o); [destruct st; try done|]; apply IH.
Qed.

Lemma check_quiet_shared fs g tr :
  quiet false tr -> check fs g Shared tr = Some Shared.
Proof.
  unfold quiet. induction tr as [|e tr IH]; [done|]. simpl.
  intros [He Htr]%andb_prop. destruct e; try done; simpl.
  destruct (g o); by apply IH.
Qed.

Lemma check_quiet_exclusive fs g tr :
  quiet true tr -> check fs g Exclusive tr = Some Exclusive.
Proof.
  unfold quiet. induction tr as [|e tr IH]; [done|]. simpl.
  intros [He Htr]%andb_prop. destruct e; try done; simpl.
  - destruct (g o); by apply IH.
  - destruct (g o); by apply IH.
Qed.

Lemma check_shared_section fs g tr :
  shared_section fs tr -> check fs g Unlocked tr = Some Unlocked.
Proof.
  intros (body & -> & Hq). simpl. rewrite decide_True by done.
  rewrite check_app, check_quiet_shared by done.
  simpl. by rewrite decide_True.
Qed.

Lemma check_exclusive_section fs g tr :
  exclusive_section fs tr -> check fs g Unlocked tr = Some Unlocked.
Proof.
  intros (body & -> & Hq). simpl. rewrite decide_True by done.
  rewrite check_app, check_quiet_exclusive by done.
  simpl. by rewrite decide_True.
Qed.

Lemma merge_nil_l tr2 tr : merge [] tr2 tr -> tr = tr2.
Proof.
  revert tr. induction tr2 as [|e tr2 IH]; intros tr Hm.
  - by inversion Hm.
  - inversion Hm; subst. f_equal. by apply IH.
Qed.

Lemma merge_nil_r tr1 tr : merge tr1 [] tr -> tr = tr1.
Proof.
  revert tr. induction tr1 as [|e tr1 IH]; intros tr Hm.
  - by inversion Hm.
  - inversion Hm; subst. f_equal. by apply IH.
Qed.

Lemma rw_step_body fs st wr e :
  body_event wr e = true -> rw_step fs st e = Some st.
Proof. by destruct e. Qed.

(** While a reader holds the mutex, a writer's [Lock] waits for the
    reader's [RUnlock]. *)
Lemma reader_runs_first fs body tr2 tr :
  quiet false body ->
  merge (body ++ [EvRUnlock fs]) (EvLock fs :: tr2) tr ->
  admits fs (Reading 0) tr = true ->
  tr = (body ++ [EvRUnlock fs]) ++ EvLock fs :: tr2.
Proof.
  revert tr. induction body as [|e body IH]; intros tr Hq Hm Hadm; simpl in *.
  - inversion Hm as [|e' t1 t2 t Hm'|e' t1 t2 t Hm']; subst.
    + f_equal. by apply merge_nil_l.
    + simpl in Hadm. by rewrite decide_True in Hadm.
  - apply andb_prop in Hq as [He Hq].
    inversion Hm as [|e' t1 t2 t Hm'|e' t1 t2 t Hm']; subst.
    + f_equal. apply IH; [done|done|].
      simpl in Hadm. by rewrite (rw_step_body _ _ _ _ He) in Hadm.
    + simpl in Hadm. by rewrite decide_True in Hadm.
Qed.

(** While a writer holds the mutex, a reader's [RLock] waits for the
    writer's [Unlock]. *)
Lemma writer_runs_first fs body tr1 tr :
  quiet true body ->
  merge (EvRLock fs :: tr1) (body ++ [EvUnlock fs]) tr ->
  admits fs Writing tr = true ->
  tr = (body ++ [EvUnlock fs]) ++ EvRLock fs :: tr1.
Proof.
  revert tr. induction body as [|e body IH]; intros tr Hq Hm Hadm; simpl in *.
  - inversion Hm as [|e' t1 t2 t Hm'|e' t1 t2 t Hm']; subst.
    + simpl in Hadm. by rewrite decide_True in Hadm.
    + f_equal. by apply merge_nil_r.
  - apply andb_prop in Hq as [He Hq].
    inversion Hm as [|e' t1 t2 t Hm'|e' t1 t2 t Hm']; subst.
    + simpl in Hadm. by rewrite decide_True in Hadm.
    + f_equal. apply IH; [done|done|].
      simpl in Hadm. by rewrite (rw_step_body _ _ _ _ He) in Hadm.
Qed.

(** A reader's critical section and a writer's, interleaved in any way
    the mutex admits, run one after the other. *)
Lemma sections_serialize fs tr_r tr_w tr :
  shared_section fs tr_r ->
  exclusive_section fs tr_w ->
  merge tr_r tr_w tr ->
  admits fs Free tr = true ->
  tr = tr_r ++ tr_w \/ tr = tr_w ++ tr_r.
Proof.
  intros (body_r & -> & Hqr) (body_w & -> & Hqw) Hm Hadm. simpl in *.
  inversion Hm as [|e' t1 t2 t Hm'|e' t1 t2 t Hm']; subst.
  - left. f_equal. simpl in Hadm. rewrite decide_True in Hadm by done.
    by apply (reader_runs_first fs body_r (body_w ++ [EvUnlock fs])).
  - right. f_equal. simpl in Hadm. rewrite decide_True in Hadm by done.
    by apply (writer_runs_first fs body_w (body_r ++ [EvRUnlock fs])).
Qed.

(** C9, as the code has it: one reader/writer lock guards the rule
    sequence.  [AddrBlocked] on an address that parses, [Filters] and
    [AllowFilters] run in one critical section under the read lock and
    only read; [AddDialFilter], [AddAllowFilter] and [Remove] run in one
    critical section under the write lock; each releases the lock when it
    returns.  A reader's section and a mutator's, interleaved in any way
    the mutex admits, run one after the other, so a reader never meets a
    half-made change of the rules.  The default is not part of the guarded
    unit: [AddrBlocked] reads it inside its critical section when the
    address parses and without taking the lock when it does not, and the
    owner's assignment to the field takes no lock. *)
Theorem C9_lock_guards_rules m fs d es :
  Repr m fs d es ->
  (forall a ip, host_ip a = Some ip ->
     exists tr,
       log (snd (AddrBlocked fs a m)) = log m ++ tr /\
       shared_section fs tr /\
       In (EvRead (ObjField fs FRejectByDefault)) tr /\
       check fs guards_all Unlocked tr = Some Unlocked) /\
  (forall a, host_ip a = None ->
     log (snd (AddrBlocked fs a m))
     = log m ++ [EvRead (ObjField fs FRejectByDefault)] /\
     check fs guards_rules Unlocked [EvRead (ObjField fs FRejectByDefault)]
     = Some Unlocked) /\
  (exists tr, log (snd (Filters_Filters fs m)) = log m ++ tr /\
              shared_section fs tr /\
              check fs guards_all Unlocked tr = Some Unlocked) /\
  (exists tr, log (snd (AllowFilters fs m)) = log m ++ tr /\
              shared_section fs tr /\
              check fs guards_all Unlocked tr = Some Unlocked) /\
  (forall p, exists tr, log (snd (AddDialFilter fs p m)) = log m ++ tr /\
                        exclusive_section fs tr /\
                        check fs guards_all Unlocked tr = Some Unlocked) /\
  (forall p, exists tr, log (snd (AddAllowFilter fs p m)) = log m ++ tr /\
                        exclusive_section fs tr /\
                        check fs guards_all Unlocked tr = Some Unlocked) /\
  (forall p, exists tr, log (snd (Remove fs p m)) = log m ++ tr /\
                        exclusive_section fs tr /\
                        check fs guards_all Unlocked tr = Some Unlocked) /\
  (forall tr_r tr_w tr,
     shared_section fs tr_r -> exclusive_section fs tr_w ->
     merge tr_r tr_w tr -> admits fs Free tr = true ->
     tr = tr_r ++ tr_w \/ tr = tr_w ++ tr_r) /\
  (forall b, log (snd (set_RejectByDefault fs b m))
             = log m ++ [EvWrite (ObjField fs FRejectByDefault)]).
Proof.
  intros HR. split_and!.
  - intros a ip Hip.
    destruct (AddrBlocked_parsed _ _ _ _ _ _ HR Hip) as (tr & Hrun & Hq).
    eexists. rewrite Hrun. split; [done|].
    assert (Hs : shared_section fs
                   ([EvRLock fs; EvRead (ObjField fs FRejectByDefault)] ++ tr
                    ++ [EvRUnlock fs])).
    { by exists (EvRead (ObjField fs FRejectByDefault) :: tr). }
    split; [done|]. split; [right; by left|].
    by apply check_shared_section.
  - intros a Hip. destruct HR as (T & ps & HT & _).
    by rewrite (AddrBlocked_unparsed _ _ _ _ HT Hip).
  - destruct (listing_run reject Filters_loop _ _ _ _ Filters_loop_collect HR)
      as (m' & out & tr & Hrun & _ & _ & _ & Hlog & Hq & _).
    eexists. unfold Filters_Filters. rewrite Hrun. split; [done|].
    assert (Hs : shared_section fs ([EvRLock fs] ++ tr ++ [EvRUnlock fs]))
      by (by eexists).
    split; [done|]. by apply check_shared_section.
  - destruct (listing_run _ AllowFilters_loop _ _ _ _ AllowFilters_loop_collect HR)
      as (m' & out & tr & Hrun & _ & _ & _ & Hlog & Hq & _).
    eexists. unfold AllowFilters. rewrite Hrun. split; [done|].
    assert (Hs : shared_section fs ([EvRLock fs] ++ tr ++ [EvRUnlock fs]))
      by (by eexists).
    split; [done|]. by apply check_shared_section.
  - intros p.
    destruct (add_with_run true _ _ _ _ p HR) as (m' & tr & Hrun & _ & _ & Hlog & Hq).
    eexists. rewrite AddDialFilter_add_with, Hrun. split; [done|].
    assert (Hs : exclusive_section fs ([EvLock fs] ++ tr ++ [EvUnlock fs]))
      by (by eexists).
    split; [done|]. by apply check_exclusive_section.
  - intros p.
    destruct (add_with_run false _ _ _ _ p HR) as (m' & tr & Hrun & _ & _ & Hlog & Hq).
    eexists. rewrite AddAllowFilter_add_with, Hrun. split; [done|].
    assert (Hs : exclusive_section fs ([EvLock fs] ++ tr ++ [EvUnlock fs]))
      by (by eexists).
    split; [done|]. by apply check_exclusive_section.
  - intros p.
    destruct (Remove_run _ _ _ _ p HR) as (m' & tr & Hrun & _ & _ & _ & Hlog & Hq & _).
    eexists. rewrite Hrun. split; [done|].
    assert (Hs : exclusive_section fs ([EvLock fs] ++ tr ++ [EvUnlock fs]))
      by (by eexists).
    split; [done|]. by apply check_exclusive_section.
  - intros tr_r tr_w tr. apply sections_serialize.
  - intros b. destruct HR as (T & ps & HT & _).
    by rewrite (set_RejectByDefault_run _ _ _ _ HT).
Qed.
End Claims.

(** * The claims on concrete tables *)

(** Proves that a concrete memory represents a table whose slots are the
    locations [ps], by evaluation. *)
Ltac repr_by ps :=
  eexists _, ps;
  split; [reflexivity|];
  split; [reflexivity|];
  split;
  [ split;
    [ split; [vm_compute; lia | vm_compute; eexists; split; [reflexivity | simpl; lia]]
    | reflexivity ]
  | split;
    [ refine (bool_decide_unpack _ _); vm_compute; exact I
    | repeat constructor ] ].

Section Witnesses.
Import Net4.

Lemma m_deny_repr : Repr Ex.m_deny 0 false [FilterEntry Ex.p24 true].
Proof. repr_by [0]. Defined.

Lemma m_dup_repr :
  Repr Ex.m_dup 0 false [FilterEntry Ex.p24 false; FilterEntry Ex.p24 true].
Proof. repr_by [0; 1]. Defined.

Lemma C1_witness :
  Repr Ex.m_deny 0 false [FilterEntry Ex.p24 true] /\
  host_ip Ex.inside = Some Ex.ip_inside /\
  exists m', AddrBlocked 0 Ex.inside Ex.m_deny = (Ok true, m').
Proof.
  split; [exact m_deny_repr|]. split; [reflexivity|].
  destruct (C1_evaluate_last_match_wins Ex.m_deny 0 false
              [FilterEntry Ex.p24 true] Ex.inside Ex.ip_inside
              m_deny_repr eq_refl) as [[m' Hm'] _].
  exists m'. exact Hm'.
Defined.

Lemma C2_witness :
  objs Ex.m_deny !! 0 = Some (MkFilters false (Slice (Some 1) 0 1 1)) /\
  host_ip Ex.unparsed = None /\
  AddrBlocked 0 Ex.unparsed Ex.m_deny
  = (Ok false, log_add [EvRead (ObjField 0 FRejectByDefault)] Ex.m_deny).
Proof.
  split; [reflexivity|]. split; [reflexivity|].
  exact (proj1 (C2_unparsed_applies_default Ex.m_deny 0 _ Ex.unparsed
                  eq_refl eq_refl)).
Defined.
Lemma m_deny_other_repr : Repr Ex.m_deny_other 1 false [FilterEntry Ex.p24 true].
Proof. repr_by [0]. Defined.

(** C3, on the table [Ex.m_dup] (default allow; an allow rule and then a
    deny rule of 1.2.3.0/24): [Remove] of 1.2.3.0/24 deletes the older
    rule only.  The deny rule of the same prefix remains, and 1.2.3.1,
    inside the prefix, is blocked although the default would let it
    through. *)
Theorem C3_remove_leaves_later_duplicate :
  exists m',
    Remove 0 Ex.p24 Ex.m_dup = (Ok tt, m') /\
    Repr m' 0 false [FilterEntry Ex.p24 true] /\
    fst (AddrBlocked 0 Ex.inside m') = Ok true /\
    decision false [] Ex.inside = false.
Proof.
  destruct (Remove_run Ex.m_dup 0 false _ Ex.p24 m_dup_repr)
    as (m' & tr & Hrun & HR & _).
  assert (HR' : Repr m' 0 false [FilterEntry Ex.p24 true]) by exact HR.
  exists m'. split; [exact Hrun|]. split; [exact HR'|].
  destruct (AddrBlocked_parsed m' 0 false _ Ex.inside Ex.ip_inside HR' eq_refl)
    as (tr' & -> & _).
  split; reflexivity.
Qed.

Lemma C4_witness :
  Repr Ex.m_deny 0 false [FilterEntry Ex.p24 true] /\
  NoDup ((fun e => IPNet_String (f e)) <$> [FilterEntry Ex.p24 true]) /\
  exists m' es',
    AddAllowFilter 0 Ex.p24 Ex.m_deny = (Ok tt, m') /\
    Repr m' 0 false es' /\ length es' = 1.
Proof.
  assert (Hnd : NoDup ((fun e => IPNet_String (f e)) <$> [FilterEntry Ex.p24 true]))
    by (simpl; apply NoDup_singleton).
  split; [exact m_deny_repr|]. split; [exact Hnd|].
  destruct (C4_add_updates_in_place false Ex.m_deny 0 false
              [FilterEntry Ex.p24 true] Ex.p24 m_deny_repr Hnd)
    as (m' & es' & Hrun & HR & _ & Hcase & _).
  exists m', es'. split; [exact Hrun|]. split; [exact HR|].
  destruct Hcase as [(i & e & _ & _ & _ & Hlen)|[Habs _]].
  - exact Hlen.
  - exfalso. inversion Habs as [|e l Hne _]. apply Hne. reflexivity.
Defined.

Lemma C6_witness :
  Repr Ex.m_deny 0 false [FilterEntry Ex.p24 true] /\
  Forall (fun e => ~ same_prefix Ex.p25 e) [FilterEntry Ex.p24 true] /\
  exists m', Remove 0 Ex.p25 Ex.m_deny = (Ok tt, m') /\
             Repr m' 0 false [FilterEntry Ex.p24 true].
Proof.
  assert (Habs : Forall (fun e => ~ same_prefix Ex.p25 e) [FilterEntry Ex.p24 true]).
  { constructor; [|constructor]. intros Heq. vm_compute in Heq. discriminate Heq. }
  split; [exact m_deny_repr|]. split; [exact Habs|].
  destruct (C6_remove_absent_is_noop Ex.m_deny 0 false
              [FilterEntry Ex.p24 true] Ex.p25 m_deny_repr Habs)
    as (m' & Hrun & _ & HR & _).
  exists m'. split; [exact Hrun|exact HR].
Defined.

Lemma C7_witness :
  Repr Ex.m_deny 0 false [FilterEntry Ex.p24 true] /\
  listing true Ex.m_deny 0 false [FilterEntry Ex.p24 true]
    (Filters_Filters 0 Ex.m_deny) /\
  listing false Ex.m_deny 0 false [FilterEntry Ex.p24 true]
    (AllowFilters 0 Ex.m_deny).
Proof.
  split; [exact m_deny_repr|].
  exact (C7_listings_are_snapshots Ex.m_deny 0 false
           [FilterEntry Ex.p24 true] m_deny_repr).
Defined.

Lemma C8_witness :
  Repr Ex.m_deny 0 false [FilterEntry Ex.p24 true] /\
  Repr Ex.m_deny_other 1 false [FilterEntry Ex.p24 true] /\
  fst (AddrBlocked 0 Ex.inside Ex.m_deny) = Ok true /\
  fst (AddrBlocked 1 Ex.inside Ex.m_deny_other) = Ok true.
Proof.
  split; [exact m_deny_repr|]. split; [exact m_deny_other_repr|].
  destruct (C8_evaluate_is_pure Ex.m_deny 0 Ex.m_deny_other 1 false
              [FilterEntry Ex.p24 true] Ex.inside m_deny_repr m_deny_other_repr)
    as (m1' & m2' & Hrun1 & Hrun2 & _).
  rewrite Hrun1, Hrun2. split; reflexivity.
Defined.

(** C9 as stated fails: on an address that does not parse, [AddrBlocked]
    reads the default without holding the lock, so its log does not pass
    the check that treats the default as guarded. *)
Lemma C9_default_read_outside_lock :
  ~ (exists tr,
       log (snd (AddrBlocked 0 Ex.unparsed Ex.m_deny)) = log Ex.m_deny ++ tr /\
       check 0 guards_all Unlocked tr = Some Unlocked).
Proof.
  intros (tr & Hlog & Hcheck).
  change (log (snd (AddrBlocked 0 Ex.unparsed Ex.m_deny)))
    with (log Ex.m_deny ++ [EvRead (ObjField 0 FRejectByDefault)]) in Hlog.
  apply app_inv_head in Hlog. subst tr. discriminate Hcheck.
Qed.

Lemma C9_witness :
  Repr Ex.m_deny 0 false [FilterEntry Ex.p24 true] /\
  (exists tr, log (snd (Remove 0 Ex.p24 Ex.m_deny)) = log Ex.m_deny ++ tr /\
              exclusive_section 0 tr) /\
  log (snd (AddrBlocked 0 Ex.unparsed Ex.m_deny))
  = log Ex.m_deny ++ [EvRead (ObjField 0 FRejectByDefault)].
Proof.
  split; [exact m_deny_repr|].
  destruct (C9_lock_guards_rules Ex.m_deny 0 false [FilterEntry Ex.p24 true]
              m_deny_repr)
    as (_ & Hunparsed & _ & _ & _ & _ & Hremove & _ & _).
  split.
  - destruct (Hremove Ex.p24) as (tr & Hlog & Hsec & _).
    exists tr. split; [exact Hlog|exact Hsec].
  - exact (proj1 (Hunparsed Ex.unparsed eq_refl)).
Defined.

Lemma C10_witness :
  Repr Ex.m_dup 0 false ([] ++ FilterEntry Ex.p24 false :: [FilterEntry Ex.p24 true]) /\
  Forall (fun e => ~ same_prefix Ex.p24 e) [] /\
  same_prefix Ex.p24 (FilterEntry Ex.p24 false) /\
  exists m' m'',
    AddAllowFilter 0 Ex.p24 Ex.m_dup = (Ok tt, m') /\
    Repr m' 0 false [FilterEntry Ex.p24 false; FilterEntry Ex.p24 true] /\
    AddrBlocked 0 Ex.inside m' = (Ok true, m'').
Proof.
  split; [exact m_dup_repr|]. split; [constructor|]. split; [reflexivity|].
  destruct (C10_add_updates_oldest_duplicate_only false Ex.m_dup 0 false
              [] (FilterEntry Ex.p24 false) [FilterEntry Ex.p24 true] Ex.p24
              m_dup_repr (Forall_nil_2 _) eq_refl)
    as (m' & Hrun & HR & Hlater).
  destruct (Hlater Ex.inside Ex.ip_inside [] (FilterEntry Ex.p24 true) []
              eq_refl eq_refl eq_refl eq_refl (Forall_nil_2 _))
    as (m'' & Hblocked).
  exists m', m''. split; [exact Hrun|]. split; [exact HR|exact Hblocked].
Defined.
End Witnesses.

(** * Further properties of the code *)

(** ** What the methods do on any memory *)
Section Steady.
Context `{Deps}.
Implicit Types (m : mem) (fs : loc) (s : slice).

Lemma quiet_nil wr : quiet wr [].
Proof. done. Qed.

Lemma steady_weaken {A} (c : M A) : steady false c -> steady true c.
Proof.
  intros Hc m r m' Hrun. destruct (Hc m r m' Hrun) as (Hlen & tr & Hlog & Hq).
  split; [done|]. exists tr. split; [done|]. by apply quiet_weaken.
Qed.

Lemma steady_any {A} wr (c : M A) : steady false c -> steady wr c.
Proof. destruct wr; [apply steady_weaken|done]. Qed.

Lemma steady_ret {A} wr (a : A) : steady wr (ret a).
Proof.
  intros m r m' [= <- <-]. split; [done|].
  exists []. by rewrite app_nil_r.
Qed.

Lemma steady_panic {A} wr : steady wr (@panic _ A).
Proof.
  intros m r m' [= <- <-]. split; [done|].
  exists []. by rewrite app_nil_r.
Qed.

Lemma steady_bind {A B} wr (c : M A) (k : A -> M B) :
  steady wr c -> (forall a, steady wr (k a)) -> steady wr (bind c k).
Proof.
  intros Hc Hk m r m' Hrun. unfold bind in Hrun.
  destruct (c m) as [[a|] m1] eqn:Hcm.
  - destruct (Hc _ _ _ Hcm) as (Hlen1 & tr1 & Hlog1 & Hq1).
    destruct (Hk a _ _ _ Hrun) as (Hlen2 & tr2 & Hlog2 & Hq2).
    split; [congruence|]. exists (tr1 ++ tr2).
    split; [|by apply quiet_app]. by rewrite Hlog2, Hlog1, app_assoc.
  - injection Hrun as <- <-.
    destruct (Hc _ _ _ Hcm) as (Hlen1 & tr1 & Hlog1 & Hq1).
    split; [done|]. by exists tr1.
Qed.

(** A computation that only inspects the memory. *)
Lemma steady_pure {A} wr (g : mem -> option A) :
  steady wr (fun m => lift (g m) m).
Proof.
  intros m r m' Hrun. unfold lift in Hrun.
  assert (m' = m) as -> by (by destruct (g m); injection Hrun).
  split; [done|]. exists []. by rewrite app_nil_r.
Qed.

Lemma steady_emit_read wr o : steady wr (emit (EvRead o)).
Proof.
  intros m r m' [= <- <-]. split; [done|]. by exists [EvRead o].
Qed.

Lemma steady_emit_write o : steady true (emit (EvWrite o)).
Proof.
  intros m r m' [= <- <-]. split; [done|]. by exists [EvWrite o].
Qed.

Lemma steady_deref wr fs : steady wr (deref fs).
Proof. apply (steady_pure wr (fun m => objs m !! fs)). Qed.

Lemma steady_get_RejectByDefault wr fs : steady wr (get_RejectByDefault fs).
Proof.
  apply steady_bind; [apply steady_emit_read|]. intros _.
  apply steady_bind; [apply steady_deref|]. intros T. apply steady_ret.
Qed.

Lemma steady_get_filters wr fs : steady wr (get_filters fs).
Proof.
  apply steady_bind; [apply steady_emit_read|]. intros _.
  apply steady_bind; [apply steady_deref|]. intros T. apply steady_ret.
Qed.

Lemma steady_set_filters fs s : steady true (set_filters fs s).
Proof.
  apply steady_bind; [apply steady_emit_write|]. intros _.
  apply steady_bind; [apply steady_deref|]. intros T.
  intros m r m' [= <- <-]. simpl. split; [by rewrite length_insert|].
  exists []. by rewrite app_nil_r.
Qed.

Lemma steady_load wr p : steady wr (load p).
Proof.
  destruct p as [l|]; [|apply steady_panic]. simpl.
  apply steady_bind; [apply steady_emit_read|]. intros _.
  apply (steady_pure wr (fun m => entries m !! l)).
Qed.

Lemma steady_store_reject p b : steady true (store_reject p b).
Proof.
  destruct p as [l|]; [|apply steady_panic]. simpl.
  apply steady_bind; [apply steady_emit_write|]. intros _.
  intros m r m' Hrun.
  assert (objs m' = objs m /\ log m' = log m) as [Ho Hl]
    by (by destruct (entries m !! l); injection Hrun as <- <-).
  split; [by rewrite Ho|]. exists []. by rewrite app_nil_r.
Qed.

Lemma steady_new_entry wr p b : steady wr (new_entry p b).
Proof.
  intros m r m' [= <- <-]. split; [done|]. exists []. simpl. by rewrite app_nil_r.
Qed.

Lemma steady_touch_read wr s : steady wr (touch EvRead s).
Proof.
  unfold touch. destruct (sl_arr s); [apply steady_emit_read|apply steady_ret].
Qed.

Lemma steady_touch_write s : steady true (touch EvWrite s).
Proof.
  unfold touch. destruct (sl_arr s); [apply steady_emit_write|apply steady_ret].
Qed.

Lemma steady_eindex wr s i : steady wr (eindex s i).
Proof.
  apply steady_bind; [apply steady_touch_read|]. intros _.
  apply (steady_pure wr (fun m => sl_index (earrays m) s i)).
Qed.

Lemma steady_eindex_int wr s i : steady wr (eindex_int s i).
Proof.
  unfold eindex_int. case_decide; [apply steady_eindex|apply steady_panic].
Qed.

Lemma steady_edata wr s : steady wr (edata s).
Proof.
  apply steady_bind; [apply steady_touch_read|]. intros _.
  apply (steady_pure wr (fun m => sl_data (earrays m) s)).
Qed.

Lemma steady_eappend s xs : steady true (eappend s xs).
Proof.
  apply steady_bind.
  - destruct xs; [apply steady_ret|].
    case_decide; [apply steady_touch_write|apply steady_touch_read].
  - intros _ m r m' Hrun.
    assert (objs m' = objs m /\ log m' = log m) as [Ho Hl].
    { destruct (sl_append growslice (earrays m) s xs) as [[h s']|];
        by injection Hrun as <- <-. }
    split; [by rewrite Ho|]. exists []. by rewrite app_nil_r.
Qed.

Lemma steady_nappend wr s xs : steady wr (nappend s xs).
Proof.
  intros m r m' Hrun. unfold nappend in Hrun.
  assert (objs m' = objs m /\ log m' = log m) as [Ho Hl].
  { destruct (sl_append growslice (narrays m) s xs) as [[h s']|];
      by injection Hrun as <- <-. }
  split; [by rewrite Ho|]. exists []. by rewrite app_nil_r.
Qed.

Lemma steady_find_loop wr ffs s idx n : steady wr (find_loop ffs s idx n).
Proof.
  revert idx. induction n as [|n IH]; intros idx; simpl; [apply steady_ret|].
  apply steady_bind; [apply steady_eindex|]. intros ft.
  apply steady_bind; [apply steady_load|]. intros e.
  destruct (String.eqb _ _); [apply steady_ret|apply IH].
Qed.

Lemma steady_find wr fs p : steady wr (find fs p).
Proof.
  apply steady_bind; [apply steady_get_filters|]. intros s.
  apply steady_find_loop.
Qed.

Lemma steady_AddrBlocked_loop wr ip s idx n rej :
  steady wr (AddrBlocked_loop ip s idx n rej).
Proof.
  revert idx rej. induction n as [|n IH]; intros idx rej; simpl; [apply steady_ret|].
  apply steady_bind; [apply steady_eindex|]. intros ft.
  apply steady_bind; [apply steady_load|]. intros e. apply IH.
Qed.

Lemma steady_Filters_loop wr s idx n out : steady wr (Filters_loop s idx n out).
Proof.
  revert idx out. induction n as [|n IH]; intros idx out; simpl; [apply steady_ret|].
  apply steady_bind; [apply steady_eindex|]. intros ft.
  apply steady_bind; [apply steady_load|]. intros e.
  destruct (reject e); [|apply IH].
  apply steady_bind; [apply steady_nappend|]. intros out'. apply IH.
Qed.

Lemma steady_AllowFilters_loop wr s idx n out :
  steady wr (AllowFilters_loop s idx n out).
Proof.
  revert idx out. induction n as [|n IH]; intros idx out; simpl; [apply steady_ret|].
  apply steady_bind; [apply steady_eindex|]. intros ft.
  apply steady_bind; [apply steady_load|]. intros e.
  destruct (negb (reject e)); [|apply IH].
  apply steady_bind; [apply steady_nappend|]. intros out'. apply IH.
Qed.

(** The bracket [mu.Lock(); defer mu.Unlock()] around a steady body, on
    any memory in which the receiver is allocated. *)
Lemma locked_any {A} (body : M A) fs T m :
  objs m !! fs = Some T ->
  steady true body ->
  exists tr,
    log (snd (bind (mu_Lock fs) (fun _ => defer (mu_Unlock fs) body) m)) = log m ++ tr /\
    exclusive_section fs tr.
Proof.
  intros HT Hbody.
  erewrite bind_ok; [|by eapply mu_Lock_run].
  unfold defer.
  destruct (body (log_add [EvLock fs] m)) as [r m1] eqn:Hrun.
  destruct (Hbody _ _ _ Hrun) as (Hlen & tr & Hlog & Hq).
  destruct (lookup_lt_is_Some_2 (objs m1) fs) as [T1 HT1].
  { rewrite Hlen. simpl. by eapply lookup_lt_Some. }
  rewrite (mu_Unlock_run _ _ _ HT1). simpl.
  exists ([EvLock fs] ++ tr ++ [EvUnlock fs]). split; [|by exists tr].
  rewrite Hlog. simpl. by rewrite <- !app_assoc.
Qed.

Lemma rlocked_any {A} (body : M A) fs T m :
  objs m !! fs = Some T ->
  steady false body ->
  exists tr,
    log (snd (bind (mu_RLock fs) (fun _ => defer (mu_RUnlock fs) body) m)) = log m ++ tr /\
    shared_section fs tr.
Proof.
  intros HT Hbody.
  erewrite bind_ok; [|by eapply mu_RLock_run].
  unfold defer.
  destruct (body (log_add [EvRLock fs] m)) as [r m1] eqn:Hrun.
  destruct (Hbody _ _ _ Hrun) as (Hlen & tr & Hlog & Hq).
  destruct (lookup_lt_is_Some_2 (objs m1) fs) as [T1 HT1].
  { rewrite Hlen. simpl. by eapply lookup_lt_Some. }
  rewrite (mu_RUnlock_run _ _ _ HT1). simpl.
  exists ([EvRLock fs] ++ tr ++ [EvRUnlock fs]). split; [|by exists tr].
  rewrite Hlog. simpl. by rewrite <- !app_assoc.
Qed.

Lemma steady_add_body b fs p :
  steady true
    (bind (find fs p) (fun idx =>
       if negb (idx =? -1)%Z then
         bind (get_filters fs) (fun s =>
           bind (eindex_int s idx) (fun ft => store_reject ft b))
       else
         bind (get_filters fs) (fun s =>
           bind (new_entry p b) (fun ft =>
             bind (eappend s [ft]) (fun s' => set_filters fs s'))))).
Proof.
  apply steady_bind; [apply steady_find|]. intros idx.
  destruct (negb _).
  - apply steady_bind; [apply steady_get_filters|]. intros s.
    apply steady_bind; [apply steady_eindex_int|]. intros ft.
    apply steady_store_reject.
  - apply steady_bind; [apply steady_get_filters|]. intros s.
    apply steady_bind; [apply steady_new_entry|]. intros ft.
    apply steady_bind; [apply steady_eappend|]. intros s'.
    apply steady_set_filters.
Qed.

Lemma steady_remove_body fs p :
  steady true
    (bind (find fs p) (fun idx =>
       if negb (idx =? -1)%Z then
         bind (get_filters fs) (fun s1 =>
           bind (lift (sl_to s1 idx)) (fun front =>
             bind (get_filters fs) (fun s2 =>
               bind (lift (sl_from s2 (idx + 1))) (fun back =>
                 bind (edata back) (fun tail =>
                   bind (eappend front tail) (fun s' => set_filters fs s'))))))
       else ret tt)).
Proof.
  apply steady_bind; [apply steady_find|]. intros idx.
  destruct (negb _); [|apply steady_ret].
  apply steady_bind; [apply steady_get_filters|]. intros s1.
  apply steady_bind; [apply (steady_pure true (fun _ => sl_to s1 idx))|]. intros front.
  apply steady_bind; [apply steady_get_filters|]. intros s2.
  apply steady_bind; [apply (steady_pure true (fun _ => sl_from s2 (idx + 1)%Z))|].
  intros back.
  apply steady_bind; [apply steady_edata|]. intros tail.
  apply steady_bind; [apply steady_eappend|]. intros s'.
  apply steady_set_filters.
Qed.

Lemma deref_nil {A} fs m (k : Filters -> M A) :
  objs m !! fs = None -> bind (deref fs) k m = (Panic, m).
Proof. intros Hnil. unfold bind, deref, lift. by rewrite Hnil. Qed.

(** X10: on any memory in which the receiver is allocated, whatever the
    rule slice and the entries look like and whether the method returns
    or panics, every method that takes the lock logs exactly one critical
    section: the lock it took is released when it is left.  The mutators
    take the write lock; the listing methods and [AddrBlocked] on an
    address that parses take the read lock and write nothing. *)
Theorem X10_lock_released_on_every_exit m fs T :
  objs m !! fs = Some T ->
  (forall p, exists tr, log (snd (AddDialFilter fs p m)) = log m ++ tr /\
                        exclusive_section fs tr) /\
  (forall p, exists tr, log (snd (AddDenyFilter fs p m)) = log m ++ tr /\
                        exclusive_section fs tr) /\
  (forall p, exists tr, log (snd (AddAllowFilter fs p m)) = log m ++ tr /\
                        exclusive_section fs tr) /\
  (forall p, exists tr, log (snd (Remove fs p m)) = log m ++ tr /\
                        exclusive_section fs tr) /\
  (exists tr, log (snd (Filters_Filters fs m)) = log m ++ tr /\
              shared_section fs tr) /\
  (exists tr, log (snd (RejectFilters fs m)) = log m ++ tr /\
              shared_section fs tr) /\
  (exists tr, log (snd (AllowFilters fs m)) = log m ++ tr /\
              shared_section fs tr) /\
  (forall a ip, host_ip a = Some ip ->
     exists tr, log (snd (AddrBlocked fs a m)) = log m ++ tr /\
                shared_section fs tr).
Proof.
  intros HT. split_and!.
  - intros p. exact (locked_any _ fs T m HT (steady_add_body true fs p)).
  - intros p. exact (locked_any _ fs T m HT (steady_add_body true fs p)).
  - intros p. exact (locked_any _ fs T m HT (steady_add_body false fs p)).
  - intros p. exact (locked_any _ fs T m HT (steady_remove_body fs p)).
  - apply (rlocked_any _ fs T m HT).
    apply steady_bind; [apply steady_get_filters|]. intros s.
    apply steady_Filters_loop.
  - apply (rlocked_any _ fs T m HT).
    apply steady_bind; [apply steady_get_filters|]. intros s.
    apply steady_Filters_loop.
  - apply (rlocked_any _ fs T m HT).
    apply steady_bind; [apply steady_get_filters|]. intros s.
    apply steady_AllowFilters_loop.
  - intros a ip Hip. unfold AddrBlocked, host_ip in *.
    destruct (ma_Split a) as [|maddr0 rest]; [done|].
    destruct (manet_ToNetAddr maddr0) as [netaddr|]; [|done].
    rewrite Hip.
    apply (rlocked_any _ fs T m HT).
    apply steady_bind; [apply steady_get_RejectByDefault|]. intros rej.
    apply steady_bind; [apply steady_get_filters|]. intros s.
    apply steady_AddrBlocked_loop.
Qed.

(** X11: on a nil receiver every method panics.  The methods that take
    the lock panic on that first statement and leave the memory as it
    was. *)
Theorem X11_nil_receiver_panics m fs :
  objs m !! fs = None ->
  (forall p, AddDialFilter fs p m = (Panic, m)) /\
  (forall p, AddDenyFilter fs p m = (Panic, m)) /\
  (forall p, AddAllowFilter fs p m = (Panic, m)) /\
  (forall p, Remove fs p m = (Panic, m)) /\
  Filters_Filters fs m = (Panic, m) /\
  RejectFilters fs m = (Panic, m) /\
  AllowFilters fs m = (Panic, m) /\
  (forall a, fst (AddrBlocked fs a m) = Panic).
Proof.
  intros Hnil.
  assert (Hlock : forall A (k : unit -> M A), bind (mu_Lock fs) k m = (Panic, m)).
  { intros A k. unfold bind at 1. unfold mu_Lock. by rewrite deref_nil. }
  assert (Hrlock : forall A (k : unit -> M A), bind (mu_RLock fs) k m = (Panic, m)).
  { intros A k. unfold bind at 1. unfold mu_RLock. by rewrite deref_nil. }
  assert (Hdef : fst (get_RejectByDefault fs m) = Panic).
  { unfold get_RejectByDefault. erewrite bind_ok; [|apply emit_run].
    by rewrite deref_nil. }
  split_and!;
    [intros p; apply Hlock | intros p; apply Hlock | intros p; apply Hlock
    | intros p; apply Hlock | apply Hrlock | apply Hrlock | apply Hrlock |].
  intros a. unfold AddrBlocked.
  destruct (ma_Split a) as [|maddr0 rest]; [done|].
  destruct (manet_ToNetAddr maddr0) as [netaddr|]; [|done].
  destruct (net_ParseIP _) as [ip|]; [|done].
  by rewrite Hrlock.
Qed.
End Steady.

(** ** Tables with at most one rule per prefix *)
Section Unique.
Context `{Deps}.
Implicit Types (m : mem) (fs : loc) (es : list filterEntry).

Lemma filter_all {A} (P : A -> Prop) `{forall x, Decision (P x)} (l : list A) :
  Forall P l -> filter P l = l.
Proof.
  induction 1 as [|x l Hx _ IH]; [done|].
  by rewrite filter_cons_True, IH.
Qed.

Lemma unique_tail e es : unique_prefixes (e :: es) -> unique_prefixes es.
Proof. unfold unique_prefixes. simpl. by intros [_ ?]%NoDup_cons. Qed.

(** In a table with one rule per string, the rules behind a rule that
    [p] names are not named by [p]. *)
Lemma unique_head_only p e es :
  unique_prefixes (e :: es) -> same_prefix p e ->
  Forall (fun e' => ~ same_prefix p e') es.
Proof.
  unfold unique_prefixes, same_prefix. simpl.
  intros [Hnotin _]%NoDup_cons He. apply Forall_forall. intros e' He' He'p.
  apply Hnotin. rewrite He, <- He'p.
  by apply (list_elem_of_fmap_2 (fun e => IPNet_String (f e))).
Qed.

Lemma rules_remove_cons_other p e es :
  ~ same_prefix p e -> rules_remove p (e :: es) = e :: rules_remove p es.
Proof.
  intros Hne. unfold rules_remove. simpl. rewrite decide_False by done.
  by destruct (list_find (same_prefix p) es) as [[i x]|].
Qed.

Lemma rules_remove_cons_same p e es :
  same_prefix p e -> rules_remove p (e :: es) = es.
Proof. intros He. unfold rules_remove. simpl. by rewrite decide_True. Qed.

(** With one rule per string, deleting the oldest rule [p] names deletes
    every rule [p] names. *)
Lemma rules_remove_unique p es :
  unique_prefixes es ->
  rules_remove p es = filter (fun e => ~ same_prefix p e) es.
Proof.
  induction es as [|e es IH]; intros Hu; [done|].
  destruct (decide (same_prefix p e)) as [He|Hne].
  - rewrite rules_remove_cons_same by done.
    rewrite filter_cons_False by (intros Hn; by apply Hn).
    symmetry. apply filter_all. by eapply unique_head_only.
  - rewrite rules_remove_cons_other, filter_cons_True by done.
    f_equal. apply IH. by eapply unique_tail.
Qed.


(** The owner's assignment to [RejectByDefault] on a represented table. *)
Lemma set_RejectByDefault_repr m fs d es b :
  Repr m fs d es ->
  exists m',
    set_RejectByDefault fs b m = (Ok tt, m') /\
    Repr m' fs b es /\
    entries m' = entries m /\ earrays m' = earrays m /\ narrays m' = narrays m.
Proof.
  intros (T & ps & HT & Hd & Hr & Hnd & HF).
  eexists. split; [by eapply set_RejectByDefault_run|]. split; [|done].
  exists (MkFilters b (filters T)), ps. simpl.
  split_and!; try done.
  apply list_lookup_insert_eq. by eapply lookup_lt_Some.
Qed.





(** X2: on a table with at most one rule per canonical string, [Remove]
    of [p] leaves no rule that [p] names and keeps every other rule, in
    order; a second [Remove] of [p] then changes no rule. *)
Theorem X2_remove_deletes_the_rule m fs d es p :
  Repr m fs d es ->
  unique_prefixes es ->
  exists m' m'',
    Remove fs p m = (Ok tt, m') /\
    Repr m' fs d (filter (fun e => ~ same_prefix p e) es) /\
    Forall (fun e => ~ same_prefix p e) (filter (fun e => ~ same_prefix p e) es) /\
    Remove fs p m' = (Ok tt, m'') /\
    Repr m'' fs d (filter (fun e => ~ same_prefix p e) es).
Proof.
  intros HR Hu.
  destruct (Remove_run _ _ _ _ p HR) as (m' & tr & Hrun & HR' & _).
  rewrite (rules_remove_unique _ _ Hu) in HR'.
  assert (Hgone : Forall (fun e => ~ same_prefix p e)
                    (filter (fun e => ~ same_prefix p e) es)).
  { apply Forall_forall. by intros e [He _]%list_elem_of_filter. }
  destruct (Remove_run _ _ _ _ p HR') as (m'' & tr' & Hrun' & HR'' & _).
  unfold rules_remove in HR''. rewrite (list_find_absent _ _ Hgone) in HR''.
  by exists m', m''.
Qed.

(** X3: an add of a prefix that no rule names, followed by [Remove] of
    that prefix, leaves the table with the rules it had. *)
Theorem X3_add_then_remove_restores (b : bool) m fs d es p :
  Repr m fs d es ->
  Forall (fun e => ~ same_prefix p e) es ->
  exists m1 m2,
    (if b then AddDialFilter fs p m else AddAllowFilter fs p m) = (Ok tt, m1) /\
    Repr m1 fs d (es ++ [FilterEntry p b]) /\
    Remove fs p m1 = (Ok tt, m2) /\
    Repr m2 fs d es.
Proof.
  intros HR Habs.
  destruct (add_run b _ _ _ _ p HR) as (m1 & Hrun1 & HR1 & _).
  rewrite (rules_add_absent _ _ _ (list_find_absent _ _ Habs)) in HR1.
  destruct (Remove_run _ _ _ _ p HR1) as (m2 & tr & Hrun2 & HR2 & _).
  unfold rules_remove in HR2.
  rewrite (list_find_oldest p es (FilterEntry p b) [] Habs) in HR2 by done.
  assert (Hdel : delete (length es) (es ++ [FilterEntry p b]) = es).
  { rewrite delete_take_drop, take_app_length, drop_ge.
    - by rewrite app_nil_r.
    - rewrite length_app. simpl. lia. }
  rewrite Hdel in HR2.
  by exists m1, m2.
Qed.

(** X4: after an add of a prefix that no rule names, the new rule is the
    newest, so it decides every address the prefix contains: blocked
    after [AddDialFilter], not blocked after [AddAllowFilter], whatever
    the default and the older rules. *)
Theorem X4_new_rule_decides_its_addresses (b : bool) m fs d es p a ip :
  Repr m fs d es ->
  Forall (fun e => ~ same_prefix p e) es ->
  host_ip a = Some ip ->
  IPNet_Contains p ip = true ->
  exists m1 m2,
    (if b then AddDialFilter fs p m else AddAllowFilter fs p m) = (Ok tt, m1) /\
    AddrBlocked fs a m1 = (Ok b, m2).
Proof.
  intros HR Habs Hip Hin.
  destruct (add_run b _ _ _ _ p HR) as (m1 & Hrun1 & HR1 & _).
  rewrite (rules_add_absent _ _ _ (list_find_absent _ _ Habs)) in HR1.
  destruct (AddrBlocked_parsed _ _ _ _ _ _ HR1 Hip) as (tr & Hrun2 & _).
  exists m1. eexists. split; [done|]. rewrite Hrun2.
  by rewrite (scan_last_match ip d es (FilterEntry p b) []).
Qed.

Lemma rules_add_twice b1 b2 p es :
  rules_add b2 p (rules_add b1 p es) = rules_add b2 p es.
Proof.
  unfold rules_add at 2 3.
  destruct (list_find (same_prefix p) es) as [[i e]|] eqn:Hlf.
  - apply list_find_Some in Hlf as (Hi & Hp & Hfirst).
    pose proof (lookup_lt_Some _ _ _ Hi) as Hlt.
    rewrite (rules_add_found b2 p _ i (FilterEntry (f e) b1)).
    + simpl. by rewrite list_insert_insert_eq.
    + apply list_find_Some. split_and!.
      * by apply list_lookup_insert_eq.
      * done.
      * intros j y Hj Hji. rewrite list_lookup_insert_ne in Hj by lia.
        by eapply Hfirst.
  - apply list_find_None in Hlf.
    rewrite (rules_add_found b2 p _ (length es) (FilterEntry p b1)).
    + rewrite insert_app_r_alt, Nat.sub_diag by done. done.
    + by apply (list_find_oldest p es (FilterEntry p b1) []).
Qed.

(** X5: of two adds of the same prefix the second wins: the table holds
    the rules it would hold had only the second add been made.  This
    holds on every represented table, duplicates or not. *)
Theorem X5_second_add_overrides_first (b1 b2 : bool) m fs d es p :
  Repr m fs d es ->
  exists m1 m2,
    (if b1 then AddDialFilter fs p m else AddAllowFilter fs p m) = (Ok tt, m1) /\
    (if b2 then AddDialFilter fs p m1 else AddAllowFilter fs p m1) = (Ok tt, m2) /\
    Repr m2 fs d (rules_add b2 p es).
Proof.
  intros HR.
  destruct (add_run b1 _ _ _ _ p HR) as (m1 & Hrun1 & HR1 & _).
  destruct (add_run b2 _ _ _ _ p HR1) as (m2 & Hrun2 & HR2 & _).
  rewrite rules_add_twice in HR2.
  by exists m1, m2.
Qed.

Lemma scan_default_irrelevant ip d1 d2 es :
  Exists (fun e => IPNet_Contains (f e) ip = true) es ->
  scan ip d1 es = scan ip d2 es.
Proof.
  intros Hex. revert d1 d2.
  induction Hex as [e es He|e es Hex IH]; intros d1 d2; unfold scan; simpl.
  - unfold scan_step at 2 4. by rewrite He.
  - apply IH.
Qed.

(** X9: the owner's assignment to [RejectByDefault] keeps the rules and
    changes the answer of [AddrBlocked] only where no rule speaks: an
    address that some rule contains is answered as before, and an address
    that does not parse or that no rule contains is answered with the new
    default. *)
Theorem X9_default_decides_only_unmatched m fs d es b :
  Repr m fs d es ->
  exists m',
    set_RejectByDefault fs b m = (Ok tt, m') /\
    Repr m' fs b es /\
    (forall a ip,
        host_ip a = Some ip ->
        Exists (fun e => IPNet_Contains (f e) ip = true) es ->
        fst (AddrBlocked fs a m') = fst (AddrBlocked fs a m)) /\
    (forall a ip,
        host_ip a = Some ip ->
        Forall (fun e => IPNet_Contains (f e) ip = false) es ->
        fst (AddrBlocked fs a m') = Ok b) /\
    (forall a, host_ip a = None -> fst (AddrBlocked fs a m') = Ok b).
Proof.
  intros HR.
  destruct (set_RejectByDefault_repr _ _ _ _ b HR) as (m' & Hrun & HR' & _).
  exists m'. split; [done|]. split; [done|]. split_and!.
  - intros a ip Hip Hex.
    destruct (AddrBlocked_run _ _ _ _ a HR) as (tr1 & ->).
    destruct (AddrBlocked_run _ _ _ _ a HR') as (tr2 & ->).
    simpl. unfold decision. rewrite Hip. f_equal.
    by apply scan_default_irrelevant.
  - intros a ip Hip Hnone.
    destruct (AddrBlocked_run _ _ _ _ a HR') as (tr2 & ->).
    simpl. unfold decision. rewrite Hip. f_equal. by apply scan_no_match.
  - intros a Hip.
    destruct (AddrBlocked_run _ _ _ _ a HR') as (tr2 & ->).
    simpl. unfold decision. by rewrite Hip.
Qed.
End Unique.

(** ** Listings *)
Section Listings.
Context `{Deps}.
Implicit Types (m : mem) (fs : loc) (es : list filterEntry).

(** A loop over rules of which none is kept returns the slice it was
    given and leaves every heap as it was. *)
Lemma collect_loop_none keep m s ps es idx n out :
  sl_repr (earrays m) s (Some <$> ps) ->
  Forall2 (fun p e => entries m !! p = Some e) ps es ->
  idx + n = length es ->
  Forall (fun e => keep e = false) (drop idx es) ->
  exists tr, collect_loop keep s idx n out m = (Ok out, log_add tr m).
Proof.
  revert idx m. induction n as [|n IH]; intros idx m Hr HF Hlen Hnone.
  - exists []. simpl. unfold ret. by rewrite log_add_nil.
  - destruct (lookup_lt_is_Some_2 es idx) as [e He]; [lia|].
    destruct (slot_run _ _ _ _ _ _ Hr HF He) as (tr1 & Hq1 & Hstep).
    simpl. rewrite Hstep. rewrite (drop_S _ _ _ He) in Hnone.
    apply Forall_cons in Hnone as [Hk Hnone]. rewrite Hk.
    destruct (IH (S idx) (log_add tr1 m)) as (tr2 & Hrun); [done|done|lia|done|].
    exists (tr1 ++ tr2). by rewrite Hrun, log_add_app.
Qed.

Lemma listing_none keep (loop : slice -> nat -> nat -> slice -> M slice) m fs d es :
  (forall s idx n out m, loop s idx n out m = collect_loop keep s idx n out m) ->
  Repr m fs d es ->
  Forall (fun e => keep e = false) es ->
  exists m',
    bind (mu_RLock fs)
      (fun _ => defer (mu_RUnlock fs)
         (bind (get_filters fs) (fun s => loop s 0 (sl_len s) nil_slice))) m
    = (Ok nil_slice, m') /\
    same_heaps m m'.
Proof.
  intros Hloop (T & ps & HT & Hd & Hr & Hnd & HF) Hnone.
  pose proof (sl_repr_length _ _ _ Hr) as Hlen.
  rewrite length_fmap in Hlen.
  assert (Hlen2 : length ps = length es) by (eapply Forall2_length; eassumption).
  set (m1 := log_add [EvRead (ObjField fs Ffilters)] (log_add [EvRLock fs] m)).
  destruct (collect_loop_none keep m1 (filters T) ps es 0 (sl_len (filters T)) nil_slice)
    as (tr & Hrun); [done|done|lia|by rewrite drop_0|].
  eexists. split.
  - eapply rlocked_run; [done| |].
    + mstep get_filters_run. fold m1. by rewrite Hloop.
    + by exists T.
  - done.
Qed.

(** X7: a listing method that finds no rule with its action returns the
    nil slice and allocates nothing: [Filters] when no rule is a deny
    rule, [AllowFilters] when no rule is an allow rule, both on a table
    without rules. *)
Theorem X7_listing_nothing_returns_nil m fs d es :
  Repr m fs d es ->
  (Forall (fun e => reject e = false) es ->
   exists m', Filters_Filters fs m = (Ok nil_slice, m') /\ same_heaps m m') /\
  (Forall (fun e => reject e = true) es ->
   exists m', AllowFilters fs m = (Ok nil_slice, m') /\ same_heaps m m').
Proof.
  intros HR. split; intros Hnone.
  - by apply (listing_none reject Filters_loop _ _ _ _ Filters_loop_collect HR).
  - apply (listing_none (fun e => negb (reject e)) AllowFilters_loop _ _ _ _
             AllowFilters_loop_collect HR).
    eapply Forall_impl; [done|]. intros e ->. done.
Qed.

Lemma sl_data_frame {X} (h h' : arrays X) s :
  (forall a, sl_arr s = Some a -> h' !! a = h !! a) ->
  sl_data h' s = sl_data h s.
Proof.
  intros Hsame. unfold sl_data.
  destruct (sl_arr s) as [a|]; [|done]. by rewrite Hsame.
Qed.

(** X6: [Filters] and [AllowFilters], called one after the other, list
    every rule exactly once between them: the two returned slices hold,
    together, the prefixes of all the rules, and the first slice still
    holds its elements after the second call. *)
Theorem X6_listings_partition_the_rules m fs d es :
  Repr m fs d es ->
  exists out1 m1 out2 m2 ds als,
    Filters_Filters fs m = (Ok out1, m1) /\
    AllowFilters fs m1 = (Ok out2, m2) /\
    sl_data (narrays m2) out1 = Some (Some <$> ds) /\
    sl_data (narrays m2) out2 = Some (Some <$> als) /\
    ds ++ als ≡ₚ f <$> es /\
    length ds + length als = length es.
Proof.
  intros HR.
  destruct (listing_run reject Filters_loop _ _ _ _ Filters_loop_collect HR)
    as (m1 & out1 & tr1 & Hrun1 & Ho1 & He1 & Ha1 & _ & _ & Hout1 & _ & _).
  assert (HR1 : Repr m1 fs d es) by (by eapply Repr_ext).
  destruct (listing_run _ AllowFilters_loop _ _ _ _ AllowFilters_loop_collect HR1)
    as (m2 & out2 & tr2 & Hrun2 & _ & _ & _ & _ & _ & Hout2 & _ & Hframe).
  set (ds := f <$> filter (fun e => reject e = true) es) in *.
  set (als := f <$> filter (fun e => negb (reject e) = true) es) in *.
  assert (Hperm : ds ++ als ≡ₚ f <$> es).
  { subst ds als. rewrite <- fmap_app. apply fmap_Permutation.
    rewrite (list_filter_iff (fun e => negb (reject e) = true)
               (fun e => ~ reject e = true)).
    - apply filter_app_complement.
    - intros e. destruct (reject e); simpl; split; done. }
  exists out1, m1, out2, m2, ds, als.
  split; [done|]. split; [done|]. split_and!.
  - destruct Hout1 as [[_ Hok] Hdata]. rewrite <- Hdata.
    apply sl_data_frame. intros a Ha. apply Hframe.
    rewrite Ha in Hok. destruct Hok as (dd & Hdd & _).
    by eapply lookup_lt_Some.
  - by destruct Hout2 as [_ Hdata].
  - done.
  - apply Permutation_length in Hperm.
    by rewrite length_app, length_fmap in Hperm.
Qed.
End Listings.

(** ** Deleting a slot *)
Section RemoveAt.
Context `{Deps}.
Implicit Types (m : mem) (fs : loc) (es : list filterEntry).

(** [append] within the capacity keeps the array, the offset and the
    capacity of the slice, and allocates nothing. *)
Lemma sl_append_fits {X} g (h : arrays X) s xs ys :
  sl_repr h s xs ->
  sl_len s + length ys <= sl_cap s ->
  exists h',
    sl_append g h s ys
    = Some (h', Slice (sl_arr s) (sl_off s) (sl_len s + length ys) (sl_cap s)) /\
    length h' = length h.
Proof.
  intros [[Hle Hok] Hd] Hfit. unfold sl_append.
  rewrite decide_True by done.
  destruct ys as [|y ys].
  - exists h. split; [|done]. simpl. rewrite Nat.add_0_r. by destruct s.
  - destruct (sl_arr s) as [a|] eqn:Ha; [|simpl in Hfit; lia].
    destruct Hok as (dd & Hdd & Hbound). rewrite Hdd.
    rewrite decide_True by lia.
    eexists. split; [done|]. apply length_insert.
Qed.

Lemma eappend_fits_run m s xs ys :
  sl_repr (earrays m) s xs ->
  sl_len s + length ys <= sl_cap s ->
  exists h' tr,
    eappend s ys m
    = (Ok (Slice (sl_arr s) (sl_off s) (sl_len s + length ys) (sl_cap s)),
       set_earrays h' (log_add tr m)) /\
    sl_repr h' (Slice (sl_arr s) (sl_off s) (sl_len s + length ys) (sl_cap s))
      (xs ++ ys) /\
    length h' = length (earrays m) /\
    quiet true tr.
Proof.
  intros Hr Hfit.
  destruct (sl_append_fits growslice _ _ _ ys Hr Hfit) as (h' & Happ & Hlen).
  destruct (sl_append_repr growslice _ _ _ ys Hr) as (h2 & s2 & Happ2 & Hr2 & _).
  rewrite Happ in Happ2. injection Happ2 as <- <-.
  destruct (eappend_run m s xs ys Hr) as (h3 & s3 & tr & Hrun & _ & Hq).
  exists h', tr. split_and!; try done.
  rewrite Hrun. unfold eappend in Hrun.
  unfold bind in Hrun.
  destruct (match ys with
            | [] => ret ()
            | _ :: _ => touch (if decide (sl_len s + length ys <= sl_cap s)
                               then EvWrite else EvRead) s
            end m) as [[u|] m0] eqn:Htouch; [|done].
  assert (Hea : earrays m0 = earrays m).
  { destruct ys as [|y ys]; [unfold ret in Htouch; by simplify_eq|].
    destruct (touch_run (if decide (sl_len s + length (y :: ys) <= sl_cap s)
                         then EvWrite else EvRead) s m) as (tr0 & Ht & _).
    rewrite Ht in Htouch. by simplify_eq. }
  rewrite Hea, Happ in Hrun. by simplify_eq.
Qed.

(** Deleting slot [i] of a represented table: the tail is shifted down
    in the slice's own array. *)
Lemma remove_at_run m fs d es i :
  Repr m fs d es ->
  i < length es ->
  exists T m' tr,
    objs m !! fs = Some T /\
    remove_at fs (Z.of_nat i) m = (Ok tt, m') /\
    objs m' !! fs
    = Some (MkFilters d (Slice (sl_arr (filters T)) (sl_off (filters T))
                               (length es - 1) (sl_cap (filters T)))) /\
    length (objs m') = length (objs m) /\
    entries m' = entries m /\
    narrays m' = narrays m /\
    length (earrays m') = length (earrays m) /\
    Repr m' fs d (delete i es) /\
    log m' = log m ++ tr /\ quiet true tr.
Proof.
  intros (T & ps & HT & Hd & Hr & Hnd & HF) Hlt.
  pose proof (sl_repr_length _ _ _ Hr) as Hlen.
  rewrite length_fmap in Hlen.
  assert (Hlen2 : length ps = length es) by (eapply Forall2_length; eassumption).
  destruct (sl_to_repr _ _ _ i Hr) as (front & Hto & Hfront & Hflen & Hfcap); [lia|].
  assert (Hfeq : front = Slice (sl_arr (filters T)) (sl_off (filters T)) i
                           (sl_cap (filters T))).
  { unfold sl_to in Hto. case_decide; [|done]. rewrite Nat2Z.id in Hto.
    by injection Hto as <-. }
  destruct (sl_from_data _ _ _ (S i) Hr) as (back & Hfrom & Hback & _); [lia|].
  set (m1 := log_add [EvRead (ObjField fs Ffilters)]
               (log_add [EvRead (ObjField fs Ffilters)] m)).
  destruct (edata_run m1 back _ Hback) as (tr2 & Hdata & Hq2).
  assert (Htail : length (drop (S i) (Some <$> ps)) = length es - 1 - i).
  { rewrite length_drop, length_fmap. lia. }
  destruct (eappend_fits_run (log_add tr2 m1) front _ (drop (S i) (Some <$> ps)) Hfront)
    as (h' & tr3 & Happ & Hr' & Hh' & Hq3).
  { rewrite Hflen, Hfcap, Htail. destruct Hr as [[Hle _] _]. lia. }
  rewrite Hfeq in Happ, Hr'. simpl in Happ, Hr'.
  replace (i + length (drop (S i) (Some <$> ps))) with (length es - 1) in Happ, Hr'
    by lia.
  pose proof (lookup_lt_Some _ _ _ HT) as Hfs.
  exists T. eexists.
  exists ([EvRead (ObjField fs Ffilters)] ++ [EvRead (ObjField fs Ffilters)]
          ++ tr2 ++ tr3 ++ [EvWrite (ObjField fs Ffilters)]).
  split; [done|]. split.
  { unfold remove_at. mstep get_filters_run.
    unfold lift at 1. rewrite Hto. unfold bind at 1.
    mstep get_filters_run.
    replace (Z.of_nat i + 1)%Z with (Z.of_nat (S i)) by lia.
    unfold lift at 1. rewrite Hfrom. unfold bind at 1.
    fold m1. rewrite (bind_ok _ _ _ _ _ Hdata).
    rewrite Hfeq. rewrite (bind_ok _ _ _ _ _ Happ).
    by eapply set_filters_run. }
  simpl. rewrite list_lookup_insert_eq by done. rewrite Hd.
  split_and!; try done.
  - by rewrite length_insert.
  - eexists _, (delete i ps). simpl.
    rewrite list_lookup_insert_eq by done.
    split; [done|]. split; [done|]. simpl.
    rewrite list_fmap_delete, delete_take_drop.
    split_and!; try done.
    + eapply sublist_NoDup; [done|]. apply sublist_delete.
    + by apply Forall2_delete.
  - by rewrite <- !app_assoc.
  - repeat apply quiet_app; try done; by apply quiet_weaken.
Qed.

(** X8: [Remove] works in place.  It allocates no array and no entry;
    the rule slice keeps its array, offset and capacity, and its length
    is the number of rules left, one less when a rule was found. *)
Theorem X8_remove_works_in_place m fs d es p :
  Repr m fs d es ->
  exists T m',
    objs m !! fs = Some T /\
    Remove fs p m = (Ok tt, m') /\
    objs m' !! fs
    = Some (MkFilters d (Slice (sl_arr (filters T)) (sl_off (filters T))
                               (length (rules_remove p es)) (sl_cap (filters T)))) /\
    length (earrays m') = length (earrays m) /\
    entries m' = entries m /\
    narrays m' = narrays m.
Proof.
  intros HR.
  pose proof HR as (T & ps & HT & Hd & Hr & Hnd & HF).
  set (m0 := log_add [EvLock fs] m).
  destruct (find_run p m0 fs T ps es) as (tr1 & Hfind & Hq1); [done..|].
  unfold rules_remove, find_index in *.
  destruct (list_find (same_prefix p) es) as [[i e]|] eqn:Hlf.
  - apply list_find_Some in Hlf as (Hi & _ & _).
    pose proof (lookup_lt_Some _ _ _ Hi) as Hlt.
    assert (HR1 : Repr (log_add tr1 m0) fs d es) by (by eapply Repr_ext).
    destruct (remove_at_run _ _ _ _ i HR1 Hlt)
      as (T1 & m1 & tr & HT1 & Hrun & HT' & Hlo & He & Hn & Hea & _).
    assert (T1 = T) as -> by (simpl in HT1; congruence).
    exists T. eexists. split; [done|]. split.
    { eapply locked_run; [done| |].
      - rewrite (bind_ok _ _ _ _ _ Hfind).
        replace (negb (Z.of_nat i =? -1)%Z) with true
          by (symmetry; apply negb_true_iff, Z.eqb_neq; lia).
        exact Hrun.
      - rewrite HT'. by eexists. }
    simpl. rewrite HT', length_delete by done.
    split_and!; done.
  - exists T. eexists. split; [done|]. split.
    { eapply locked_run; [done| |].
      - rewrite (bind_ok _ _ _ _ _ Hfind). simpl. reflexivity.
      - by exists T. }
    simpl. rewrite HT. split_and!; try done.
    apply sl_repr_length in Hr. rewrite length_fmap in Hr.
    assert (Hlen : length ps = length es) by (eapply Forall2_length; eassumption).
    rewrite <- Hlen, Hr, <- Hd. by destruct T as [d0 [a o l c]].
Qed.
End RemoveAt.

(** ** The version that always appends *)
Section AppendingFacts.
Context `{Deps}.
Implicit Types (m : mem) (fs : loc) (es : list filterEntry).

Lemma appending_add_with_run b m fs d es p :
  Repr m fs d es ->
  exists m',
    Appending.add_with b fs p m = (Ok tt, m') /\
    Repr m' fs d (es ++ [FilterEntry p b]).
Proof.
  intros (T & ps & HT & Hd & Hr & Hnd & HF). unfold Appending.add_with.
  set (m1 := log_add [EvRead (ObjField fs Ffilters)] (log_add [EvLock fs] m)).
  set (m2 := set_entries (entries m ++ [FilterEntry p b]) m1).
  destruct (eappend_run m2 (filters T) _ [Some (length (entries m))] Hr)
    as (h' & s' & tr2 & Happ & Hr' & Hq2).
  destruct (entries_extend _ _ _ (FilterEntry p b) Hnd HF) as [Hnd' HF'].
  pose proof (lookup_lt_Some _ _ _ HT) as Hfs.
  eexists. split.
  - eapply locked_run; [done| |].
    + mstep get_filters_run.
      unfold new_entry at 1. unfold bind at 1. fold m1. fold m2.
      rewrite (bind_ok _ _ _ _ _ Happ).
      by eapply set_filters_run.
    + simpl. rewrite list_lookup_insert_eq by done. by eexists.
  - eexists _, (ps ++ [length (entries m)]). simpl.
    rewrite list_lookup_insert_eq by done.
    split; [done|]. split; [done|]. simpl.
    rewrite fmap_app. by split_and!.
Qed.

Lemma appending_add_run (b : bool) m fs d es p :
  Repr m fs d es ->
  exists m',
    (if b then Appending.AddDialFilter fs p m else Appending.AddAllowFilter fs p m)
    = (Ok tt, m') /\
    Repr m' fs d (es ++ [FilterEntry p b]).
Proof.
  intros HR. destruct (appending_add_with_run b _ _ _ _ p HR) as (m' & Hrun & HR').
  exists m'. split; [|done]. by destruct b.
Qed.

(** X12: in the version that always appends, an add never looks at the
    rules: the table grows by one rule at the end, also when a rule of
    the same prefix exists, and the rule just added decides every address
    its prefix contains, as the comment on [Filters] says ("the last
    policy added to the Filters is authoritative"). *)
Theorem X12_appending_add_is_authoritative (b : bool) m fs d es p :
  Repr m fs d es ->
  exists m1,
    (if b then Appending.AddDialFilter fs p m else Appending.AddAllowFilter fs p m)
    = (Ok tt, m1) /\
    Repr m1 fs d (es ++ [FilterEntry p b]) /\
    forall a ip,
      host_ip a = Some ip ->
      IPNet_Contains p ip = true ->
      exists m2, AddrBlocked fs a m1 = (Ok b, m2).
Proof.
  intros HR. destruct (appending_add_run b _ _ _ _ p HR) as (m1 & Hrun & HR1).
  exists m1. split; [done|]. split; [done|].
  intros a ip Hip Hin.
  destruct (AddrBlocked_parsed _ _ _ _ _ _ HR1 Hip) as (tr & Hrun2 & _).
  eexists. rewrite Hrun2.
  by rewrite (scan_last_match ip d es (FilterEntry p b) []).
Qed.

Lemma filter_delete_rejected {A} (P : A -> Prop) `{forall x, Decision (P x)}
    (l : list A) i x :
  l !! i = Some x -> ~ P x -> filter P (delete i l) = filter P l.
Proof.
  intros Hi Hx. rewrite delete_take_drop.
  rewrite <- (take_drop_middle l i x Hi) at 3.
  rewrite !filter_app. f_equal. by rewrite filter_cons_False.
Qed.

(** The loop of the appending [Remove], entered with the index that
    [find] has returned for the rules [es]. *)
Lemma appending_remove_loop fuel m fs d es p :
  Repr m fs d es ->
  length es < fuel ->
  exists m',
    Appending.Remove_loop fuel fs p (find_index p es) m = (Ok true, m') /\
    Repr m' fs d (filter (fun e => ~ same_prefix p e) es) /\
    length (objs m') = length (objs m).
Proof.
  revert m es. induction fuel as [|fuel IH]; intros m es HR Hfuel; [lia|].
  simpl. unfold find_index.
  destruct (list_find (same_prefix p) es) as [[i e]|] eqn:Hlf.
  - apply list_find_Some in Hlf as (Hi & Hp & _).
    pose proof (lookup_lt_Some _ _ _ Hi) as Hlt.
    replace (negb (Z.of_nat i =? -1)%Z) with true
      by (symmetry; apply negb_true_iff, Z.eqb_neq; lia).
    destruct (remove_at_run _ _ _ _ i HR Hlt)
      as (T & m1 & tr & _ & Hrun & _ & Hlo & _ & _ & _ & HR1 & _).
    rewrite (bind_ok _ _ _ _ _ Hrun).
    pose proof HR1 as (T1 & ps1 & HT1 & Hd1 & Hr1 & Hnd1 & HF1).
    destruct (find_run p m1 fs T1 ps1 (delete i es)) as (tr1 & Hfind & _); [done..|].
    rewrite (bind_ok _ _ _ _ _ Hfind).
    destruct (IH (log_add tr1 m1) (delete i es)) as (m' & Hloop & HR' & Hlo').
    { by eapply Repr_ext. }
    { rewrite length_delete by done. lia. }
    exists m'. split; [done|]. split.
    + rewrite <- (filter_delete_rejected _ es i e Hi); [done|].
      intros Hn. by apply Hn.
    + rewrite Hlo'. simpl. done.
  - exists m. split; [done|]. split; [|done].
    rewrite filter_all; [done|]. by apply list_find_None in Hlf.
Qed.

(** X13: in the version that always appends, [Remove] deletes every rule
    whose canonical string is that of [p], duplicates included, and keeps
    the other rules in order.  Its loop ends: it tests its condition at
    most once more than there are rules. *)
Theorem X13_appending_remove_deletes_all fuel m fs d es p :
  Repr m fs d es ->
  length es < fuel ->
  exists m',
    Appending.Remove fuel fs p m = (Ok true, m') /\
    Repr m' fs d (filter (fun e => ~ same_prefix p e) es) /\
    Forall (fun e => ~ same_prefix p e) (filter (fun e => ~ same_prefix p e) es).
Proof.
  intros HR Hfuel.
  pose proof HR as (T & ps & HT & Hd & Hr & Hnd & HF).
  destruct (find_run p (log_add [EvLock fs] m) fs T ps es)
    as (tr1 & Hfind & _); [done..|].
  destruct (appending_remove_loop fuel (log_add tr1 (log_add [EvLock fs] m)) fs d es p)
    as (m1 & Hloop & HR1 & Hlo); [by eapply Repr_ext|done|].
  eexists. split; [|split].
  - eapply locked_run; [done| |].
    + rewrite (bind_ok _ _ _ _ _ Hfind). exact Hloop.
    + apply lookup_lt_is_Some_2. rewrite Hlo. simpl. by eapply lookup_lt_Some.
  - by eapply Repr_ext.
  - apply Forall_forall. by intros e [He _]%list_elem_of_filter.
Qed.

Lemma appending_Filters_loop_collect s idx n out m :
  Appending.Filters_loop s idx n out m
  = collect_loop (fun _ => true) s idx n out m.
Proof.
  revert idx out m. induction n as [|n IH]; intros idx out m; [done|].
  simpl. unfold bind.
  destruct (eindex s idx m) as [[ft|] m1]; [|done].
  destruct (load ft m1) as [[e|] m2]; [|done].
  destruct (nappend out [Some (f e)] m2) as [[out'|] m3]; [apply IH|done].
Qed.

(** X14: in the version that always appends, [Filters] lists the prefix
    of every rule, deny or allow, oldest first and duplicates included,
    and leaves the table as it is. *)
Theorem X14_appending_filters_lists_every_rule m fs d es :
  Repr m fs d es ->
  exists out m',
    Appending.Filters_Filters fs m = (Ok out, m') /\
    sl_repr (narrays m') out (Some <$> (f <$> es)) /\
    Repr m' fs d es.
Proof.
  intros HR.
  destruct (listing_run (fun _ => true) Appending.Filters_loop _ _ _ _
              appending_Filters_loop_collect HR)
    as (m' & out & tr & Hrun & Ho & He & Ha & _ & _ & Hout & _).
  rewrite filter_all in Hout by (by apply Forall_forall).
  exists out, m'. split; [done|]. split; [done|]. by eapply Repr_ext.
Qed.
End AppendingFacts.

(** ** The further properties on concrete tables *)

(** Replaces a concrete memory by its value, computed by the virtual
    machine. *)
Ltac normalize_mem m :=
  let v := eval vm_compute in m in
  let E := fresh "E" in
  assert (E : m = v) by (vm_compute; reflexivity);
  rewrite E; clear E.

Section MoreWitnesses.
Import Net4.

Lemma m_two_repr :
  Repr Ex2.m_two 0 false [FilterEntry Ex.p24 true; FilterEntry Ex.p25 false].
Proof. normalize_mem Ex2.m_two. repr_by [0; 1]. Defined.

Lemma m_appended_repr :
  Repr Ex2.m_appended 0 false [FilterEntry Ex.p24 false; FilterEntry Ex.p24 true].
Proof. normalize_mem Ex2.m_appended. repr_by [0; 1]. Defined.

Lemma m_two_unique :
  unique_prefixes [FilterEntry Ex.p24 true; FilterEntry Ex.p25 false].
Proof.
  unfold unique_prefixes. refine (bool_decide_unpack _ _). vm_compute. exact I.
Defined.

Lemma p25_not_in_m_deny :
  Forall (fun e => ~ same_prefix Ex.p25 e) [FilterEntry Ex.p24 true].
Proof.
  constructor; [|constructor]. intros Heq. vm_compute in Heq. discriminate Heq.
Defined.

Lemma X2_witness :
  Repr Ex2.m_two 0 false [FilterEntry Ex.p24 true; FilterEntry Ex.p25 false] /\
  unique_prefixes [FilterEntry Ex.p24 true; FilterEntry Ex.p25 false] /\
  exists m',
    Remove 0 Ex.p24 Ex2.m_two = (Ok tt, m') /\
    Repr m' 0 false
      (filter (fun e => ~ same_prefix Ex.p24 e)
         [FilterEntry Ex.p24 true; FilterEntry Ex.p25 false]).
Proof.
  split; [exact m_two_repr|]. split; [exact m_two_unique|].
  destruct (X2_remove_deletes_the_rule Ex2.m_two 0 false
              [FilterEntry Ex.p24 true; FilterEntry Ex.p25 false] Ex.p24
              m_two_repr m_two_unique)
    as (m' & m'' & Hrun & HR & _).
  exists m'. split; [exact Hrun|exact HR].
Defined.

Lemma X3_witness :
  Repr Ex.m_deny 0 false [FilterEntry Ex.p24 true] /\
  Forall (fun e => ~ same_prefix Ex.p25 e) [FilterEntry Ex.p24 true] /\
  exists m1 m2,
    AddAllowFilter 0 Ex.p25 Ex.m_deny = (Ok tt, m1) /\
    Remove 0 Ex.p25 m1 = (Ok tt, m2) /\
    Repr m2 0 false [FilterEntry Ex.p24 true].
Proof.
  split; [exact m_deny_repr|]. split; [exact p25_not_in_m_deny|].
  destruct (X3_add_then_remove_restores false Ex.m_deny 0 false
              [FilterEntry Ex.p24 true] Ex.p25 m_deny_repr p25_not_in_m_deny)
    as (m1 & m2 & Hadd & _ & Hrem & HR).
  exists m1, m2. split; [exact Hadd|]. split; [exact Hrem|exact HR].
Defined.

Lemma X4_witness :
  Repr Ex.m_deny 0 false [FilterEntry Ex.p24 true] /\
  Forall (fun e => ~ same_prefix Ex.p25 e) [FilterEntry Ex.p24 true] /\
  host_ip Ex2.inside25 = Some Ex2.ip_inside25 /\
  IPNet_Contains Ex.p25 Ex2.ip_inside25 = true /\
  exists m1 m2,
    AddAllowFilter 0 Ex.p25 Ex.m_deny = (Ok tt, m1) /\
    AddrBlocked 0 Ex2.inside25 m1 = (Ok false, m2).
Proof.
  split; [exact m_deny_repr|]. split; [exact p25_not_in_m_deny|].
  split; [reflexivity|]. split; [reflexivity|].
  exact (X4_new_rule_decides_its_addresses false Ex.m_deny 0 false
           [FilterEntry Ex.p24 true] Ex.p25 Ex2.inside25 Ex2.ip_inside25
           m_deny_repr p25_not_in_m_deny eq_refl eq_refl).
Defined.

Lemma X5_witness :
  Repr Ex.m_deny 0 false [FilterEntry Ex.p24 true] /\
  exists m1 m2,
    AddAllowFilter 0 Ex.p24 Ex.m_deny = (Ok tt, m1) /\
    AddDialFilter 0 Ex.p24 m1 = (Ok tt, m2) /\
    Repr m2 0 false (rules_add true Ex.p24 [FilterEntry Ex.p24 true]).
Proof.
  split; [exact m_deny_repr|].
  exact (X5_second_add_overrides_first false true Ex.m_deny 0 false
           [FilterEntry Ex.p24 true] Ex.p24 m_deny_repr).
Defined.

Lemma X6_witness :
  Repr Ex2.m_two 0 false [FilterEntry Ex.p24 true; FilterEntry Ex.p25 false] /\
  exists out1 m1 out2 m2 ds als,
    Filters_Filters 0 Ex2.m_two = (Ok out1, m1) /\
    AllowFilters 0 m1 = (Ok out2, m2) /\
    sl_data (narrays m2) out1 = Some (Some <$> ds) /\
    sl_data (narrays m2) out2 = Some (Some <$> als) /\
    ds ++ als ≡ₚ f <$> [FilterEntry Ex.p24 true; FilterEntry Ex.p25 false] /\
    length ds + length als = 2.
Proof.
  split; [exact m_two_repr|].
  exact (X6_listings_partition_the_rules Ex2.m_two 0 false
           [FilterEntry Ex.p24 true; FilterEntry Ex.p25 false] m_two_repr).
Defined.

Lemma X7_witness :
  Repr Ex.m_deny 0 false [FilterEntry Ex.p24 true] /\
  exists m', AllowFilters 0 Ex.m_deny = (Ok nil_slice, m') /\
             same_heaps Ex.m_deny m'.
Proof.
  split; [exact m_deny_repr|].
  apply (proj2 (X7_listing_nothing_returns_nil Ex.m_deny 0 false
                  [FilterEntry Ex.p24 true] m_deny_repr)).
  constructor; [reflexivity|constructor].
Defined.

Lemma X8_witness :
  Repr Ex2.m_two 0 false [FilterEntry Ex.p24 true; FilterEntry Ex.p25 false] /\
  exists m',
    Remove 0 Ex.p24 Ex2.m_two = (Ok tt, m') /\
    objs m' !! 0 = Some (MkFilters false (Slice (Some 2) 0 1 2)) /\
    length (earrays m') = 3.
Proof.
  split; [exact m_two_repr|].
  destruct (X8_remove_works_in_place Ex2.m_two 0 false
              [FilterEntry Ex.p24 true; FilterEntry Ex.p25 false] Ex.p24 m_two_repr)
    as (T & m' & HT & Hrun & HT' & Hlen & _).
  exists m'. split; [exact Hrun|].
  assert (T = MkFilters false (Slice (Some 2) 0 2 2)) as ->.
  { vm_compute in HT. injection HT as <-. reflexivity. }
  split; [exact HT'|exact Hlen].
Defined.

Lemma X9_witness :
  Repr Ex.m_deny 0 false [FilterEntry Ex.p24 true] /\
  exists m',
    set_RejectByDefault 0 true Ex.m_deny = (Ok tt, m') /\
    Repr m' 0 true [FilterEntry Ex.p24 true] /\
    fst (AddrBlocked 0 Ex.unparsed m') = Ok true.
Proof.
  split; [exact m_deny_repr|].
  destruct (X9_default_decides_only_unmatched Ex.m_deny 0 false
              [FilterEntry Ex.p24 true] true m_deny_repr)
    as (m' & Hrun & HR & _ & _ & Hunparsed).
  exists m'. split; [exact Hrun|]. split; [exact HR|].
  exact (Hunparsed Ex.unparsed eq_refl).
Defined.

Lemma X10_witness :
  objs Ex2.m_nil_slot !! 0 = Some (MkFilters false (Slice (Some 0) 0 1 1)) /\
  fst (AddDialFilter 0 Ex.p24 Ex2.m_nil_slot) = Panic /\
  exists tr,
    log (snd (AddDialFilter 0 Ex.p24 Ex2.m_nil_slot)) = log Ex2.m_nil_slot ++ tr /\
    exclusive_section 0 tr.
Proof.
  split; [reflexivity|]. split; [vm_compute; reflexivity|].
  exact (proj1 (X10_lock_released_on_every_exit Ex2.m_nil_slot 0 _ eq_refl) Ex.p24).
Defined.

Lemma X11_witness :
  objs (@empty_mem deps) !! 0 = None /\
  AddDialFilter 0 Ex.p24 empty_mem = (Panic, empty_mem) /\
  fst (AddrBlocked 0 Ex.inside empty_mem) = Panic.
Proof.
  split; [reflexivity|].
  destruct (X11_nil_receiver_panics (@empty_mem deps) 0 eq_refl)
    as (Hadd & _ & _ & _ & _ & _ & _ & Heval).
  split; [exact (Hadd Ex.p24)|exact (Heval Ex.inside)].
Defined.

Lemma X12_witness :
  Repr Ex.m_deny 0 false [FilterEntry Ex.p24 true] /\
  exists m1 m2,
    Appending.AddAllowFilter 0 Ex.p24 Ex.m_deny = (Ok tt, m1) /\
    Repr m1 0 false [FilterEntry Ex.p24 true; FilterEntry Ex.p24 false] /\
    AddrBlocked 0 Ex.inside m1 = (Ok false, m2).
Proof.
  split; [exact m_deny_repr|].
  destruct (X12_appending_add_is_authoritative false Ex.m_deny 0 false
              [FilterEntry Ex.p24 true] Ex.p24 m_deny_repr)
    as (m1 & Hrun & HR & Hauth).
  destruct (Hauth Ex.inside Ex.ip_inside eq_refl eq_refl) as (m2 & Heval).
  exists m1, m2. split; [exact Hrun|]. split; [exact HR|exact Heval].
Defined.

Lemma X13_witness :
  Repr Ex2.m_appended 0 false [FilterEntry Ex.p24 false; FilterEntry Ex.p24 true] /\
  2 < 3 /\
  exists m',
    Appending.Remove 3 0 Ex.p24 Ex2.m_appended = (Ok true, m') /\
    Repr m' 0 false
      (filter (fun e => ~ same_prefix Ex.p24 e)
         [FilterEntry Ex.p24 false; FilterEntry Ex.p24 true]).
Proof.
  split; [exact m_appended_repr|]. split; [lia|].
  destruct (X13_appending_remove_deletes_all 3 Ex2.m_appended 0 false
              [FilterEntry Ex.p24 false; FilterEntry Ex.p24 true] Ex.p24
              m_appended_repr ltac:(simpl; lia))
    as (m' & Hrun & HR & _).
  exists m'. split; [exact Hrun|exact HR].
Defined.

Lemma X14_witness :
  Repr Ex2.m_appended 0 false [FilterEntry Ex.p24 false; FilterEntry Ex.p24 true] /\
  exists out m',
    Appending.Filters_Filters 0 Ex2.m_appended = (Ok out, m') /\
    sl_repr (narrays m') out [Some Ex.p24; Some Ex.p24].
Proof.
  split; [exact m_appended_repr|].
  destruct (X14_appending_filters_lists_every_rule Ex2.m_appended 0 false
              [FilterEntry Ex.p24 false; FilterEntry Ex.p24 true] m_appended_repr)
    as (out & m' & Hrun & Hout & _).
  exists out, m'. split; [exact Hrun|exact Hout].
Defined.
End MoreWitnesses.
